(** * krelease-tracker: release ledger, outbox sync, liveness and API-key access

    A shallow embedding of the Go sources

    - [internal/database/sqlite.go], [models.go], [migrations.go]: the SQLite
      tables [releases], [pending_releases], [slave_pings] and the statements
      run against them;
    - [internal/sync/client.go]: the outbox drain [SyncPendingReleases];
    - [internal/api] (routes/middleware and [handlers.go]): API-key
      extraction, classification, validation and the tenant access gate.

    Conventions.  Go [string]s are byte strings and become [string]; a
    [time.Time] is an instant, a [Z] counting nanoseconds since the Unix
    epoch; a SQL table is the list of its rows in rowid order; a Go
    [(value, error)] result becomes a sum whose left side carries the error
    message. *)

From stdpp Require Import gmap strings list sorting pretty.
From Stdlib Require Import ZArith NArith Ascii.

Open Scope Z_scope.

(** ** Go standard library: [strings] *)

(** [strings.Split(s, sep)] for a one-byte separator: the pieces of [s]
    between consecutive separators; a string without separator gives the
    one-element slice [[s]] (also for the empty string). *)
Fixpoint Split (sep : ascii) (s : string) : list string :=
  match s with
  | EmptyString => [EmptyString]
  | String c s' =>
      if decide (c = sep) then EmptyString :: Split sep s'
      else match Split sep s' with
           | [] => [String c EmptyString]
           | p :: ps => String c p :: ps
           end
  end.

(** [strings.Join(parts, sep)]. *)
Fixpoint Join (sep : ascii) (parts : list string) : string :=
  match parts with
  | [] => EmptyString
  | [p] => p
  | p :: ps => p +:+ String sep (Join sep ps)
  end.

(** [strings.HasPrefix(s, prefix)]. *)
Definition HasPrefix (s pre : string) : bool := String.prefix pre s.

(** [strings.TrimPrefix(s, prefix)]. *)
Definition TrimPrefix (s pre : string) : string :=
  if HasPrefix s pre
  then String.substring (String.length pre) (String.length s - String.length pre) s
  else s.

(** [strings.Contains(s, substr)]. *)
Fixpoint Contains (s sub : string) : bool :=
  HasPrefix s sub ||
  match s with
  | EmptyString => false
  | String _ s' => Contains s' sub
  end.

(** Number of occurrences of the byte [c] in [s]. *)
Fixpoint count_byte (c : ascii) (s : string) : nat :=
  match s with
  | EmptyString => 0%nat
  | String a s' => ((if decide (a = c) then 1 else 0) + count_byte c s')%nat
  end.

(** ** Go standard library: [crypto/subtle] *)

Definition byte_val (c : ascii) : N := N_of_ascii c.

(** The accumulation loop of [subtle.ConstantTimeCompare]:
    [v |= x[i] ^ y[i]] over every index, without early exit. *)
Fixpoint ctc_loop (v : N) (x y : list ascii) : N :=
  match x, y with
  | a :: x', b :: y' => ctc_loop (N.lor v (N.lxor (byte_val a) (byte_val b))) x' y'
  | _, _ => v
  end.

(** [subtle.ConstantTimeCompare(x, y)]: 0 at once when the lengths differ,
    otherwise 1 exactly when the accumulated difference is zero. *)
Definition ConstantTimeCompare (x y : string) : Z :=
  if negb (String.length x =? String.length y)%nat then 0
  else if (ctc_loop 0%N (String.list_ascii_of_string x) (String.list_ascii_of_string y) =? 0)%N
       then 1 else 0.

(** ** API keys ([internal/api], routes and middleware) *)

Definition hyphen : ascii := "-"%char.

(** [parseAPIKey]: returns [(clientName, clientAuth, isAdmin)]. *)
Definition parseAPIKey (apiKey : string) : string * string * bool :=
  let parts := Split hyphen apiKey in
  if bool_decide (length parts = 2%nat)
     && bool_decide (parts !!! 0%nat ≠ "")
     && bool_decide (parts !!! 1%nat ≠ "")
  then (parts !!! 0%nat, parts !!! 1%nat, false)
  else ("", apiKey, true).

(** [Server.isValidAPIKey]: scan of the configured keys. *)
Fixpoint isValidAPIKey (apiKeys : list string) (providedKey : string) : bool :=
  match apiKeys with
  | [] => false
  | validKey :: rest =>
      if (String.length providedKey =? String.length validKey)%nat
         && (ConstantTimeCompare providedKey validKey =? 1)
      then true
      else isValidAPIKey rest providedKey
  end.

(** [Server.validateAPIKeyAccess]. *)
Definition validateAPIKeyAccess (apiKeys : list string)
    (clientName clientAuth : string) (isAdmin : bool) : bool :=
  if isAdmin then isValidAPIKey apiKeys clientAuth
  else
    let fullKey := clientName +:+ "-" +:+ clientAuth in
    isValidAPIKey apiKeys fullKey.

(** The pipeline of [authMiddleware] and [handleBadgeWithAuth]: parse, then
    validate. *)
Definition authenticate (apiKeys : list string) (apiKey : string) : bool :=
  let '(clientName, clientAuth, isAdmin) := parseAPIKey apiKey in
  validateAPIKeyAccess apiKeys clientName clientAuth isAdmin.

(** ** Time ([time.Time], [time.Duration]) *)

Definition Time := Z.
Definition Duration := Z.

Definition Second : Duration := 1000000000.
Definition Minute : Duration := 60 * Second.

Definition minDuration : Duration := - 2 ^ 63.
Definition maxDuration : Duration := 2 ^ 63 - 1.

(** [t.Sub(u)]: the difference as an [int64] count of nanoseconds, saturated
    at the largest and smallest [Duration]. *)
Definition Sub (t u : Time) : Duration :=
  let d := t - u in
  if d <? minDuration then minDuration
  else if maxDuration <? d then maxDuration
  else d.

(** The zero [time.Time{}]: January 1, year 1, 00:00:00 UTC. *)
Definition zeroTime : Time := -62135596800 * Second.

Definition IsZero (t : Time) : bool := bool_decide (t = zeroTime).

(** [t.Format(time.RFC3339)] keeps whole seconds only; [rfc3339 t] is the
    instant the formatted text denotes.  The statements below compare the
    stored texts; all rows are written in UTC, for which the order of the
    texts is the order of the instants they denote. *)
Definition rfc3339 (t : Time) : Time := (t `div` Second) * Second.

(** ** Rows ([internal/database/models.go]) *)

Record Release := mkRelease {
  ID : Z;
  Namespace : string;
  WorkloadName : string;
  WorkloadType : string;
  ContainerName : string;
  ImageRepo : string;
  ImageName : string;
  ImageTag : string;
  ImageSHA : string;
  ClientName : string;
  EnvName : string;
  FirstSeen : Time;
  LastSeen : Time;
  CreatedAt : Time;
  UpdatedAt : Time
}.

(** [PendingRelease] has the fields of [Release], one for one. *)
Definition PendingRelease := Release.

Record CurrentRelease := mkCurrentRelease {
  cNamespace : string;
  cWorkloadName : string;
  cWorkloadType : string;
  cContainerName : string;
  cImageRepo : string;
  cImageName : string;
  cImageTag : string;
  cImageSHA : string;
  cClientName : string;
  cEnvName : string;
  cLastSeen : Time
}.

Record SlavePing := mkSlavePing {
  pID : Z;
  pClientName : string;
  pEnvName : string;
  LastPingTime : Time;
  Status : string;
  SlaveVersion : string;
  pCreatedAt : Time;
  pUpdatedAt : Time
}.

Record ReleaseHistory := mkReleaseHistory {
  Releases : list Release;
  Total : nat
}.

Record ComponentKey := mkComponentKey {
  kNamespace : string;
  kWorkloadName : string;
  kContainerName : string
}.

Global Instance Release_eq_dec : EqDecision Release.
Proof. solve_decision. Defined.
Global Instance CurrentRelease_eq_dec : EqDecision CurrentRelease.
Proof. solve_decision. Defined.
Global Instance SlavePing_eq_dec : EqDecision SlavePing.
Proof. solve_decision. Defined.
Global Instance ComponentKey_eq_dec : EqDecision ComponentKey.
Proof. solve_decision. Defined.

(** The columns a [SELECT] of the current-release queries returns. *)
Definition toCurrent (r : Release) : CurrentRelease :=
  mkCurrentRelease (Namespace r) (WorkloadName r) (WorkloadType r)
    (ContainerName r) (ImageRepo r) (ImageName r) (ImageTag r) (ImageSHA r)
    (ClientName r) (EnvName r) (LastSeen r).

(** The columns of [UNIQUE(namespace, workload_name, container_name,
    client_name, env_name, image_sha)] (migration 2), which are also the
    conflict target of the upserts. *)
Definition uniqueKey (r : Release) : string * string * string * string * string * string :=
  (Namespace r, WorkloadName r, ContainerName r, ClientName r, EnvName r, ImageSHA r).

(** The columns the correlated sub-queries join [r2] to [r1] on. *)
Definition groupKey (r : Release) : string * string * string * string * string :=
  (Namespace r, WorkloadName r, ContainerName r, ClientName r, EnvName r).


(** ** The database ([internal/database/sqlite.go]) *)

(** The three tables with their [AUTOINCREMENT] counters, and the state of
    the connection: [Some msg] when the driver fails every call with the
    error [msg]. *)
Record DB := mkDB {
  conn_err : option string;
  releases : list Release;
  releases_seq : Z;
  pending_releases : list PendingRelease;
  pending_seq : Z;
  slave_pings : list SlavePing;
  pings_seq : Z
}.

Definition emptyDB : DB := mkDB None [] 0 [] 0 [] 0.

Definition set_releases (db : DB) (rows : list Release) (seq : Z) : DB :=
  mkDB (conn_err db) rows seq (pending_releases db) (pending_seq db)
    (slave_pings db) (pings_seq db).

Definition set_pending (db : DB) (rows : list PendingRelease) (seq : Z) : DB :=
  mkDB (conn_err db) (releases db) (releases_seq db) rows seq
    (slave_pings db) (pings_seq db).

Definition set_pings (db : DB) (rows : list SlavePing) (seq : Z) : DB :=
  mkDB (conn_err db) (releases db) (releases_seq db)
    (pending_releases db) (pending_seq db) rows seq.

(** A Go [(T, error)]: the value, or the message of the error. *)
Inductive result (A : Type) : Type :=
  | Ok (a : A)
  | Err (msg : string).
Global Arguments Ok {_} _.
Global Arguments Err {_} _.
Global Instance result_eq_dec {A} `{EqDecision A} : EqDecision (result A).
Proof. solve_decision. Defined.

(** [MAX(last_seen)] over the rows a sub-query selects: [None] is SQL's
    [NULL], the maximum of no rows. *)
Fixpoint sqlMax (xs : list Time) : option Time :=
  match xs with
  | [] => None
  | x :: xs' => Some (match sqlMax xs' with None => x | Some m => Z.max x m end)
  end.

(** The [ORDER BY] clauses below are relations handed to [merge_sort]; rows
    that compare equal come out in the order the sort leaves them, which is
    one of the orders the statement allows. *)

(** [ORDER BY last_seen DESC]. *)
Definition lastSeenDesc (a b : Release) : Prop := LastSeen b ≤ LastSeen a.
Global Instance lastSeenDesc_dec : RelDecision lastSeenDesc.
Proof. intros a b. unfold lastSeenDesc. apply _. Defined.

(** [ORDER BY created_at ASC]. *)
Definition createdAtAsc (a b : Release) : Prop := CreatedAt a ≤ CreatedAt b.
Global Instance createdAtAsc_dec : RelDecision createdAtAsc.
Proof. intros a b. unfold createdAtAsc. apply _. Defined.

(** [ORDER BY namespace, workload_name, container_name], bytewise. *)
Definition componentLeb (a b : CurrentRelease) : bool :=
  match String.compare (cNamespace a) (cNamespace b) with
  | Lt => true
  | Gt => false
  | Eq =>
      match String.compare (cWorkloadName a) (cWorkloadName b) with
      | Lt => true
      | Gt => false
      | Eq => String.leb (cContainerName a) (cContainerName b)
      end
  end.
Definition componentOrder (a b : CurrentRelease) : Prop := componentLeb a b = true.
Global Instance componentOrder_dec : RelDecision componentOrder.
Proof. intros a b. unfold componentOrder. apply _. Defined.

(** The row an [INSERT] of [release] creates at time [now] under id [id]. *)
Definition insertedRow (now : Time) (id : Z) (release : Release) : Release :=
  mkRelease id (Namespace release) (WorkloadName release) (WorkloadType release)
    (ContainerName release) (ImageRepo release) (ImageName release)
    (ImageTag release) (ImageSHA release) (ClientName release) (EnvName release)
    (rfc3339 (FirstSeen release)) (rfc3339 (LastSeen release))
    (rfc3339 now) (rfc3339 now).

(** [DO UPDATE SET last_seen = ?, updated_at = ?] on the conflicting row. *)
Definition touchedRow (now : Time) (release r : Release) : Release :=
  mkRelease (ID r) (Namespace r) (WorkloadName r) (WorkloadType r)
    (ContainerName r) (ImageRepo r) (ImageName r) (ImageTag r) (ImageSHA r)
    (ClientName r) (EnvName r) (FirstSeen r)
    (rfc3339 (LastSeen release)) (CreatedAt r) (rfc3339 now).

(** [INSERT ... ON CONFLICT(unique columns) DO UPDATE SET ...], the one
    statement of [UpsertRelease] and of [UpsertPendingRelease]. *)
Definition touchAll (now : Time) (release : Release) (rows : list Release)
    : list Release :=
  (λ r, if decide (uniqueKey r = uniqueKey release)
        then touchedRow now release r else r) <$> rows.

Definition upsertRow (now : Time) (release : Release)
    (rows : list Release) (seq : Z) : list Release * Z :=
  if bool_decide (uniqueKey release ∈ uniqueKey <$> rows)
  then (touchAll now release rows, seq)
  else (rows ++ [insertedRow now (seq + 1) release], seq + 1).

(** [DB.UpsertRelease]; [now] is the reading of [time.Now()]. *)
Definition UpsertRelease (now : Time) (release : Release) (db : DB) : result DB :=
  match conn_err db with
  | Some e => Err e
  | None =>
      let '(rows, seq) := upsertRow now release (releases db) (releases_seq db) in
      Ok (set_releases db rows seq)
  end.

(** [DB.UpsertPendingRelease]. *)
Definition UpsertPendingRelease (now : Time) (release : PendingRelease) (db : DB)
    : result DB :=
  match conn_err db with
  | Some e => Err e
  | None =>
      let '(rows, seq) :=
        upsertRow now release (pending_releases db) (pending_seq db) in
      Ok (set_pending db rows seq)
  end.

(** The correlated sub-query [SELECT MAX(last_seen) FROM releases r2 WHERE
    r2.<group columns> = r1.<group columns>]; [sha] adds the condition
    [length(r2.image_sha) > 0] that [GetCurrentReleases] alone carries.
    [isLatest] is the condition [last_seen = (SELECT MAX ...)] on [r1]. *)
Definition groupMax (sha : bool) (rows : list Release) (r1 : Release) : option Time :=
  sqlMax (LastSeen <$>
    filter (λ r2, groupKey r2 = groupKey r1 ∧ (sha = true → ImageSHA r2 ≠ "")) rows).

Definition isLatest (sha : bool) (rows : list Release) (r1 : Release) : Prop :=
  Some (LastSeen r1) = groupMax sha rows r1.
Global Instance isLatest_dec sha rows r1 : Decision (isLatest sha rows r1).
Proof. unfold isLatest. apply _. Defined.

(** [SELECT DISTINCT <columns> ... ORDER BY namespace, workload_name,
    container_name] over the selected rows. *)
Definition selectCurrent (selected : list Release) : list CurrentRelease :=
  merge_sort componentOrder (remove_dups (toCurrent <$> selected)).

(** [DB.GetCurrentReleases]. *)
Definition GetCurrentReleases (db : DB) : result (list CurrentRelease) :=
  match conn_err db with
  | Some e => Err ("database connection lost: " +:+ e)
  | None =>
      Ok (selectCurrent (filter (isLatest true (releases db)) (releases db)))
  end.

(** [DB.GetCurrentReleasesFiltered]: the [client_name] and [env_name]
    conditions are appended only for non-empty arguments. *)
Definition GetCurrentReleasesFiltered (clientName envName : string) (db : DB)
    : result (list CurrentRelease) :=
  match conn_err db with
  | Some e => Err ("database connection lost: " +:+ e)
  | None =>
      Ok (selectCurrent
            (filter (λ r1, isLatest false (releases db) r1
                           ∧ (clientName ≠ "" → ClientName r1 = clientName)
                           ∧ (envName ≠ "" → EnvName r1 = envName))
                    (releases db)))
  end.

(** Go's [%v] of a [[]string]. *)
Definition fmtStrings (xs : list string) : string :=
  "[" +:+ Join " "%char xs +:+ "]".

(** The query of [GetCurrentReleaseByWorkload]: the rows of the workload,
    container and tenant that are the latest of their group. *)
Definition latestByWorkload
    (workloadType workloadName containerName clientName envName : string)
    (rows : list Release) : list CurrentRelease :=
  selectCurrent
    (filter (λ r1, WorkloadType r1 = workloadType
                   ∧ WorkloadName r1 = workloadName
                   ∧ ContainerName r1 = containerName
                   ∧ ClientName r1 = clientName
                   ∧ EnvName r1 = envName
                   ∧ isLatest false rows r1)
            rows).

(** [DB.GetCurrentReleaseByWorkload]: [Ok None] is the Go result
    [(nil, nil)]. *)
Definition GetCurrentReleaseByWorkload
    (workloadType workloadName containerName clientName envName : string)
    (db : DB) : result (option CurrentRelease) :=
  match conn_err db with
  | Some e => Err ("database connection lost: " +:+ e)
  | None =>
      let releases :=
        latestByWorkload workloadType workloadName containerName clientName
          envName (releases db) in
      match releases with
      | [] => Ok None
      | [r] => Ok (Some r)
      | _ =>
          let namespaces := cNamespace <$> releases in
          Err ("multiple releases found for " +:+ workloadType +:+ "/"
               +:+ workloadName +:+ "/" +:+ containerName
               +:+ " in namespaces: " +:+ fmtStrings namespaces)
      end
  end.

(** [DB.GetReleaseHistory]: [ORDER BY last_seen DESC LIMIT 10]. *)
Definition GetReleaseHistory
    (namespace workloadName containerName clientName envName : string)
    (db : DB) : result ReleaseHistory :=
  match conn_err db with
  | Some e => Err e
  | None =>
      let releases :=
        take 10 (merge_sort lastSeenDesc
          (filter (λ r, Namespace r = namespace ∧ WorkloadName r = workloadName
                        ∧ ContainerName r = containerName
                        ∧ ClientName r = clientName ∧ EnvName r = envName)
                  (releases db))) in
      Ok (mkReleaseHistory releases (length releases))
  end.






(** [DB.GetPendingReleases]. *)
Definition GetPendingReleases (db : DB) : result (list PendingRelease) :=
  match conn_err db with
  | Some e => Err e
  | None =>
      Ok (merge_sort createdAtAsc
            (filter (λ r, (0 < String.length (ImageSHA r))%nat) (pending_releases db)))
  end.

(** [DB.DeletePendingRelease]. *)
Definition DeletePendingRelease (id : Z) (db : DB) : result DB :=
  match conn_err db with
  | Some e => Err e
  | None =>
      Ok (set_pending db (filter (λ r, ID r ≠ id) (pending_releases db))
            (pending_seq db))
  end.

(** [DB.UpsertSlavePing]: insert, or on conflict of [(client_name,
    env_name)] overwrite the ping time, the status and the version. *)
Definition UpsertSlavePing (now : Time) (clientName envName slaveVersion : string)
    (db : DB) : result DB :=
  match conn_err db with
  | Some e => Err e
  | None =>
      let ts := rfc3339 now in
      let hit (p : SlavePing) := pClientName p = clientName ∧ pEnvName p = envName in
      if bool_decide (Exists hit (slave_pings db))
      then Ok (set_pings db
                 ((λ p, if decide (hit p)
                        then mkSlavePing (pID p) (pClientName p) (pEnvName p) ts
                               "online" slaveVersion (pCreatedAt p) ts
                        else p) <$> slave_pings db)
                 (pings_seq db))
      else Ok (set_pings db
                 (slave_pings db ++
                    [mkSlavePing (pings_seq db + 1) clientName envName ts
                       "online" slaveVersion ts ts])
                 (pings_seq db + 1))
  end.

(** [DB.GetSlavePingStatus]; [now] is the reading of [time.Now()].  Only
    [last_ping_time] is selected; [QueryRow] takes the first matching row
    and yields [sql.ErrNoRows] when there is none. *)
Definition GetSlavePingStatus (now : Time) (clientName envName : string) (db : DB)
    : result (string * Time) :=
  match conn_err db with
  | Some e => Err ("failed to query slave ping status: " +:+ e)
  | None =>
      match head (LastPingTime <$>
              filter (λ p, pClientName p = clientName ∧ pEnvName p = envName)
                     (slave_pings db)) with
      | None => Ok ("never", zeroTime)
      | Some lastPingTime =>
          let timeSinceLastPing := Sub now lastPingTime in
          let status :=
            if timeSinceLastPing <=? 10 * Minute then "online"
            else if timeSinceLastPing <=? 15 * Minute then "warning"
            else "offline" in
          Ok (status, lastPingTime)
      end
  end.

(** [DB.GetLastClientEnvUpdate]: [MAX(updated_at)], the zero time for
    [NULL]. *)
Definition GetLastClientEnvUpdate (clientName envName : string) (db : DB)
    : result Time :=
  match conn_err db with
  | Some e =>
      Err ("failed to query last update for " +:+ clientName +:+ "/"
           +:+ envName +:+ ": " +:+ e)
  | None =>
      match sqlMax (UpdatedAt <$>
              filter (λ r, ClientName r = clientName ∧ EnvName r = envName)
                     (releases db)) with
      | None => Ok zeroTime
      | Some lastUpdate => Ok lastUpdate
      end
  end.

(** [splitLast] ([models.go]) for a one-byte separator: [None] is the
    one-element slice [[s]], [Some (a, b)] the slice [[a, b]] cut at the
    last separator. *)
Fixpoint splitLast (sep : ascii) (s : string) : option (string * string) :=
  match s with
  | EmptyString => None
  | String c s' =>
      match splitLast sep s' with
      | Some (a, b) => Some (String c a, b)
      | None => if decide (c = sep) then Some (EmptyString, s') else None
      end
  end.

(** [ParseImagePath] ([models.go]): [(repo, name, tag)]. *)
Definition ParseImagePath (imagePath : string) : string * string * string :=
  let '(imagePath, tag) :=
    match splitLast ":"%char imagePath with
    | Some (a, b) => (a, b)
    | None => (imagePath, "latest")
    end in
  match splitLast "/"%char imagePath with
  | Some (repo, name) => (repo, name, tag)
  | None => ("", imagePath, tag)
  end.

(** ** The outbox drain ([internal/sync/client.go]) *)

Record Client := mkClient {
  masterURL : string;
  apiKey : string;
  proxyURL : string;
  tlsInsecure : bool
}.

(** The [PUT] request [syncSingleRelease] builds for one entry: its URL, the
    [X-API-Key] header ([None] when the client has no key) and the fields of
    the JSON body. *)
Record SyncRequest := mkSyncRequest {
  sURL : string;
  sAPIKey : option string;
  sImageTag : string;
  sImageSHA : string;
  sImageRepo : string;
  sImageName : string;
  sClientName : string;
  sEnvName : string;
  sReleasedAt : Time
}.

Definition syncRequestFor (c : Client) (release : PendingRelease) : SyncRequest :=
  mkSyncRequest
    (masterURL c +:+ "/api/collect/" +:+ Namespace release +:+ "/"
       +:+ WorkloadType release +:+ "/" +:+ WorkloadName release +:+ "/"
       +:+ ContainerName release)
    (if decide (apiKey c = "") then None else Some (apiKey c))
    (ImageTag release) (ImageSHA release) (ImageRepo release)
    (ImageName release) (ClientName release) (EnvName release)
    (LastSeen release).

(** What the drain logs for each entry it handles. *)
Inductive SyncEvent :=
  | SyncFailed (id : Z) (err : string)
  | DeleteFailed (id : Z) (err : string)
  | SyncedAndRemoved (id : Z).

(** The end of [syncSingleRelease]: an error met on the way is returned as
    it is, and a response is an error unless its status is [200 OK];
    [None] is [nil]. *)
Definition syncOutcome (resp : result Z) : option string :=
  match resp with
  | Err e => Some e
  | Ok status =>
      if decide (status = 200) then None
      else Some ("master returned status " +:+ pretty status)
  end.

Section Sync.
(** The network and the master behind it: a state [World], and [Do], what
    [syncSingleRelease] does with the request it has built for the client
    at hand: encode it, set up the transport (proxy, TLS) and send it.
    [Do] answers with the status code of the response, or with the error
    that [syncSingleRelease] returns when one of these steps fails. *)
Context {World : Type}.
Variable Do : SyncRequest → World → World * result Z.

(** [Client.syncSingleRelease]: [None] is a [nil] error. *)
Definition syncSingleRelease (c : Client) (release : PendingRelease) (w : World)
    : World * option string :=
  let '(w', resp) := Do (syncRequestFor c release) w in
  (w', syncOutcome resp).

(** The body of the [for ... range pendingReleases] loop. *)
Definition syncStep (c : Client) (st : DB * World * list SyncEvent)
    (release : PendingRelease) : DB * World * list SyncEvent :=
  let '(db, w, log) := st in
  match syncSingleRelease c release w with
  | (w', Some err) => (db, w', log ++ [SyncFailed (ID release) err])
  | (w', None) =>
      match DeletePendingRelease (ID release) db with
      | Err e => (db, w', log ++ [DeleteFailed (ID release) e])
      | Ok db' => (db', w', log ++ [SyncedAndRemoved (ID release)])
      end
  end.

(** [Client.SyncPendingReleases]: the error it returns, with the database,
    the network and the log lines it leaves behind. *)
Definition SyncPendingReleases (c : Client) (db : DB) (w : World)
    : option string * (DB * World * list SyncEvent) :=
  match GetPendingReleases db with
  | Err e => (Some ("failed to get pending releases: " +:+ e), (db, w, []))
  | Ok pendingReleases =>
      (None, foldl (syncStep c) (db, w, []) pendingReleases)
  end.

(** The answers the master gives to a sequence of requests sent one after
    the other. *)
Fixpoint answers (reqs : list SyncRequest) (w : World) : list (result Z) * World :=
  match reqs with
  | [] => ([], w)
  | q :: reqs' =>
      let '(w', a) := Do q w in
      let '(rest, w'') := answers reqs' w' in
      (a :: rest, w'')
  end.
End Sync.

(** A push is delivered when the master answered it with the status
    [200 OK]; every other answer, a transport error or a response of any
    other status, is a failed delivery.  This is the reading of the
    answers the drain is checked against, stated on the answer itself and
    not through [syncOutcome]. *)
Definition accepted (a : result Z) : Prop := a = Ok 200.
Global Instance accepted_dec a : Decision (accepted a).
Proof. unfold accepted. apply _. Defined.

(** The log line an entry gets for the answer to its push, and the ids of
    the entries whose push was accepted. *)
Definition syncEvent (release : PendingRelease) (a : result Z) : SyncEvent :=
  match syncOutcome a with
  | None => SyncedAndRemoved (ID release)
  | Some err => SyncFailed (ID release) err
  end.

Definition deliveredIDs (pend : list PendingRelease) (ans : list (result Z))
    : list Z :=
  ID <$> (filter (λ p, accepted p.2) (zip pend ans)).*1.

(** The entries [GetPendingReleases] enumerates. *)
Definition pendingEntries (db : DB) : list PendingRelease :=
  merge_sort createdAtAsc
    (filter (λ r, (0 < String.length (ImageSHA r))%nat) (pending_releases db)).

(** ** Go standard library: [net/url] *)

Definition ishex (c : ascii) : bool :=
  let n := nat_of_ascii c in
  ((48 <=? n) && (n <=? 57) || (97 <=? n) && (n <=? 102)
   || (65 <=? n) && (n <=? 70))%nat.

Definition unhex (c : ascii) : nat :=
  let n := nat_of_ascii c in
  (if (48 <=? n) && (n <=? 57) then n - 48
   else if (97 <=? n) && (n <=? 102) then n - 97 + 10
   else if (65 <=? n) && (n <=? 70) then n - 65 + 10
   else 0)%nat.

(** [url.QueryUnescape]: every ["%XY"] becomes the byte [0xXY] and every
    ['+'] a space; [None] is the [EscapeError] for a ['%'] not followed by
    two hexadecimal digits. *)
Fixpoint QueryUnescape (s : string) : option string :=
  match s with
  | EmptyString => Some EmptyString
  | String c rest =>
      if decide (c = "%"%char) then
        match rest with
        | String h (String l rest') =>
            if ishex h && ishex l
            then String (ascii_of_nat (unhex h * 16 + unhex l)) <$> QueryUnescape rest'
            else None
        | _ => None
        end
      else if decide (c = "+"%char) then String " "%char <$> QueryUnescape rest
      else String c <$> QueryUnescape rest
  end.

(** ** The HTTP API ([internal/api]) *)

Record Config := mkConfig {
  Mode : string;
  cfgEnvName : string;
  cfgClientName : string
}.

(** The fields of [Server] the handlers read; the database is passed
    separately, as the state the handlers run on. *)
Record Server := mkServer {
  namespaces : list string;
  apiKeys : list string;
  config : Config
}.

(** [ManualCollectRequest]; [ReleasedAt] is a pointer, [None] when nil. *)
Record ManualCollectRequest := mkManualCollectRequest {
  mImageTag : string;
  mImageSHA : string;
  mReleasedAt : option Time;
  mImageRepo : string;
  mImageName : string;
  mClientName : string;
  mEnvName : string
}.

(** An [*http.Request] after routing: the headers (one value per canonical
    name), the decoded query parameters of [r.URL.Query()], the path
    variables of [mux.Vars], and the body as [json.Decode] reads it into a
    [ManualCollectRequest] ([None] when decoding fails). *)
Record Request := mkRequest {
  Method : string;
  Header : gmap string string;
  URLQuery : gmap string string;
  Vars : gmap string string;
  Body : option ManualCollectRequest
}.

(** [r.Header.Get], [r.URL.Query().Get] and the lookup in [mux.Vars]: the
    empty string for an absent name. *)
Definition HeaderGet (r : Request) (name : string) : string :=
  default "" (Header r !! name).
Definition QueryGet (r : Request) (name : string) : string :=
  default "" (URLQuery r !! name).
Definition Var (r : Request) (name : string) : string :=
  default "" (Vars r !! name).

(** [r.Header.Set]. *)
Definition HeaderSet (r : Request) (name value : string) : Request :=
  mkRequest (Method r) (<[name := value]> (Header r)) (URLQuery r) (Vars r) (Body r).

Record BadgeColor := mkBadgeColor { Left : string; Right : string }.

Definition BadgeColorSuccess := mkBadgeColor "#555" "#4c1".
Definition BadgeColorError := mkBadgeColor "#555" "#e05d44".
Definition BadgeColorWarning := mkBadgeColor "#555" "#dfb317".
Definition BadgeColorGray := mkBadgeColor "#555" "#9f9f9f".

(** A badge before [GenerateSVGBadge] draws it. *)
Record BadgeOptions := mkBadgeOptions {
  Label : string;
  Value : string;
  Color : BadgeColor
}.

Definition CreateSuccessBadge (envName version : string) : BadgeOptions :=
  mkBadgeOptions envName version BadgeColorSuccess.
Definition CreateErrorBadge (envName message : string) : BadgeOptions :=
  mkBadgeOptions envName message BadgeColorError.
Definition CreateNotFoundBadge (envName : string) : BadgeOptions :=
  mkBadgeOptions envName "not deployed" BadgeColorGray.
Definition CreateMultipleFoundBadge (envName : string) : BadgeOptions :=
  mkBadgeOptions envName "multiple found" BadgeColorWarning.

(** What a handler writes: the text of [http.Error], the JSON error of
    [sendUnauthorizedResponse], the JSON documents of the handlers, or a
    badge. *)
Inductive Payload :=
  | ErrorText (msg : string)
  | ErrorJSON (msg : string)
  | CurrentJSON (grouped : gmap string (list CurrentRelease))
      (ordered : list (string * list CurrentRelease)) (total : nat)
      (timestamp : Time)
  | HistoryJSON (namespace workload container : string) (history : ReleaseHistory)
  | CollectJSON (release : Release)
  | BadgeSVG (badge : BadgeOptions).

Record Response := mkResponse {
  StatusCode : Z;
  Sent : Payload
}.

Definition StatusOK : Z := 200.
Definition StatusBadRequest : Z := 400.
Definition StatusUnauthorized : Z := 401.
Definition StatusForbidden : Z := 403.
Definition StatusInternalServerError : Z := 500.

Definition httpError (msg : string) (code : Z) : Response :=
  mkResponse code (ErrorText msg).

(** A handler runs on the database and answers. *)
Definition Handler := Request → DB → DB * Response.

(** [Server.extractAPIKey]. *)
Definition extractAPIKey (r : Request) : string :=
  let auth := HeaderGet r "Authorization" in
  if bool_decide (auth ≠ "") && HasPrefix auth "Bearer "
  then TrimPrefix auth "Bearer "
  else
    let apiKey := HeaderGet r "X-API-Key" in
    if bool_decide (apiKey ≠ "") then apiKey
    else
      let apiKey := QueryGet r "apikey" in
      if bool_decide (apiKey ≠ "") then
        match QueryUnescape apiKey with
        | Some decoded => decoded
        | None => apiKey
        end
      else "".

Definition sendUnauthorizedResponse (message : string) : Response :=
  mkResponse StatusUnauthorized (ErrorJSON message).

(** [Server.authMiddleware]. *)
Definition authMiddleware (s : Server) (next : Handler) : Handler := λ r db,
  let apiKey := extractAPIKey r in
  if decide (apiKey = "") then (db, sendUnauthorizedResponse "Missing API key")
  else
    let '(clientName, clientAuth, isAdmin) := parseAPIKey apiKey in
    if negb (validateAPIKeyAccess (apiKeys s) clientName clientAuth isAdmin)
    then (db, sendUnauthorizedResponse "Invalid API key")
    else
      let r :=
        if negb isAdmin && bool_decide (clientName ≠ "")
        then HeaderSet r "X-Client-Name" clientName else r in
      let r := HeaderSet r "X-Is-Admin" (if isAdmin then "true" else "false") in
      next r db.

(** [setupRoutes]: the routes under [/api] run behind [authMiddleware] when
    API keys are configured. *)
Definition apiRoute (s : Server) (h : Handler) : Handler :=
  if decide (0 < length (apiKeys s))%nat then authMiddleware s h else h.

(** [getClientAccessFromRequest]: [(clientName, isAdmin)]. *)
Definition getClientAccessFromRequest (r : Request) : string * bool :=
  let isAdmin := bool_decide (HeaderGet r "X-Is-Admin" = "true") in
  (if isAdmin then "" else HeaderGet r "X-Client-Name", isAdmin).

Definition accessDenied (requestedClientName : string) : Response :=
  httpError ("Access denied: API key is not authorized for client '"
             +:+ requestedClientName +:+ "'") StatusForbidden.

(** The grouping of [handleCurrentReleases]: releases by namespace, then
    the configured namespaces in their order followed by the others as the
    iteration over the map meets them. *)
Definition groupByNamespace (releases : list CurrentRelease)
    : gmap string (list CurrentRelease) :=
  foldl (λ g rel, <[cNamespace rel := default [] (g !! cNamespace rel) ++ [rel]]> g)
        ∅ releases.

Definition orderNamespaces (configured : list string)
    (grouped : gmap string (list CurrentRelease))
    : list (string * list CurrentRelease) :=
  omap (λ ns, (λ rels, (ns, rels)) <$> grouped !! ns) configured
  ++ filter (λ p, p.1 ∉ configured) (map_to_list grouped).

(** [Server.handleCurrentReleases]. *)
Definition handleCurrentReleases (s : Server) : Handler := λ r db,
  let requestedClientName := QueryGet r "client_name" in
  let envName := QueryGet r "env_name" in
  if bool_decide (requestedClientName = "" ∨ envName = "") then
    (db, httpError "Missing required query parameters: client_name, env_name"
           StatusBadRequest)
  else
    let '(authenticatedClientName, isAdmin) := getClientAccessFromRequest r in
    if negb isAdmin && bool_decide (authenticatedClientName ≠ requestedClientName)
    then (db, accessDenied requestedClientName)
    else
      match GetCurrentReleasesFiltered requestedClientName envName db with
      | Err _ => (db, httpError "Failed to get current releases"
                        StatusInternalServerError)
      | Ok releases =>
          let grouped := groupByNamespace releases in
          let orderedNamespaces := orderNamespaces (namespaces s) grouped in
          match GetLastClientEnvUpdate requestedClientName envName db with
          | Err _ => (db, httpError "Failed to get last update"
                            StatusInternalServerError)
          | Ok lastUpdate =>
              (db, mkResponse StatusOK
                     (CurrentJSON grouped orderedNamespaces (length releases)
                        lastUpdate))
          end
      end.

(** [Server.handleReleaseHistory]. *)
Definition handleReleaseHistory (s : Server) : Handler := λ r db,
  let requestedClientName := Var r "client" in
  let envName := Var r "env" in
  let namespace := Var r "namespace" in
  let workload := Var r "workload" in
  let container := Var r "container" in
  if bool_decide (namespace = "" ∨ workload = "" ∨ container = ""
                  ∨ requestedClientName = "" ∨ envName = "") then
    (db, httpError
           "Missing required parameters: namespace, workload, container, client_name, env_name"
           StatusBadRequest)
  else
    let '(authenticatedClientName, isAdmin) := getClientAccessFromRequest r in
    if negb isAdmin && bool_decide (authenticatedClientName ≠ requestedClientName)
    then (db, accessDenied requestedClientName)
    else
      match GetReleaseHistory namespace workload container requestedClientName
              envName db with
      | Err _ => (db, httpError "Failed to get release history"
                        StatusInternalServerError)
      | Ok history =>
          (db, mkResponse StatusOK (HistoryJSON namespace workload container history))
      end.

(** [Server.serveBadge]: always [200 OK]. *)
Definition serveBadge (badge : BadgeOptions) : Response :=
  mkResponse StatusOK (BadgeSVG badge).

(** [Server.handleBadgeCore]. *)
Definition handleBadgeCore (s : Server)
    (workloadKind workloadName container clientName envName : string)
    (db : DB) : DB * Response :=
  if bool_decide (workloadKind = "" ∨ workloadName = "" ∨ container = ""
                  ∨ clientName = "" ∨ envName = "") then
    (db, serveBadge (CreateErrorBadge envName "invalid request"))
  else
    match GetCurrentReleaseByWorkload workloadKind workloadName container
            clientName envName db with
    | Err err =>
        if Contains err "multiple releases found"
        then (db, serveBadge (CreateMultipleFoundBadge envName))
        else (db, serveBadge (CreateErrorBadge envName "query error"))
    | Ok None => (db, serveBadge (CreateNotFoundBadge envName))
    | Ok (Some release) =>
        (db, serveBadge (CreateSuccessBadge envName (cImageTag release)))
    end.

(** [Server.handleBadgeWithAuth]: the API key is a path variable. *)
Definition handleBadgeWithAuth (s : Server) : Handler := λ r db,
  let apiKey := Var r "api-key" in
  let workloadKind := Var r "workload-kind" in
  let workloadName := Var r "workload-name" in
  let container := Var r "container" in
  let requestedClientName := Var r "client" in
  let envName := Var r "env" in
  let core :=
    handleBadgeCore s workloadKind workloadName container requestedClientName
      envName db in
  if decide (0 < length (apiKeys s))%nat then
    if decide (apiKey = "") then
      (db, serveBadge (CreateErrorBadge envName "unauthorized"))
    else
      let '(authenticatedClientName, clientAuth, isAdmin) := parseAPIKey apiKey in
      if negb (validateAPIKeyAccess (apiKeys s) authenticatedClientName
                 clientAuth isAdmin)
      then (db, serveBadge (CreateErrorBadge envName "unauthorized"))
      else if negb isAdmin
              && bool_decide (authenticatedClientName ≠ requestedClientName)
      then (db, serveBadge (CreateErrorBadge envName "access denied"))
      else core
  else core.

(** [Server.handleManualCollect]; [now] is the reading of the clock during
    the request (the handler and the upserts read it within the same
    request; the embedding takes one reading). *)
Definition handleManualCollect (now : Time) (s : Server) : Handler := λ r db,
  let namespace := Var r "namespace" in
  let workloadKind := Var r "workload-kind" in
  let workloadName := Var r "workload-name" in
  let container := Var r "container" in
  if bool_decide (namespace = "" ∨ workloadKind = "" ∨ workloadName = ""
                  ∨ container = "") then
    (db, httpError
           "Missing required path parameters: namespace, workload-kind, workload-name, container"
           StatusBadRequest)
  else
    match Body r with
    | None => (db, httpError "Invalid request body" StatusBadRequest)
    | Some req =>
        if bool_decide (mImageTag req = "" ∨ mImageSHA req = "") then
          (db, httpError "Missing required field: image_tag, image_sha"
                 StatusBadRequest)
        else
          let releasedAt := default now (mReleasedAt req) in
          let imagePath :=
            mImageRepo req +:+ "/" +:+ mImageName req +:+ ":" +:+ mImageTag req in
          let '(repo, name, tag) := ParseImagePath imagePath in
          let clientName :=
            if decide (mClientName req = "") then cfgClientName (config s)
            else mClientName req in
          let envName :=
            if decide (mEnvName req = "") then cfgEnvName (config s)
            else mEnvName req in
          let release :=
            mkRelease 0 namespace workloadName workloadKind container repo name
              tag (mImageSHA req) clientName envName releasedAt releasedAt
              zeroTime zeroTime in
          match UpsertRelease now release db with
          | Err _ => (db, httpError "Failed to save release"
                            StatusInternalServerError)
          | Ok db1 =>
              let saved := mkResponse StatusOK (CollectJSON release) in
              if decide (Mode (config s) = "slave") then
                match UpsertPendingRelease now release db1 with
                | Err _ => (db1, httpError "Failed to upsert pending release"
                                   StatusInternalServerError)
                | Ok db2 => (db2, saved)
                end
              else (db1, saved)
          end
    end.

(** The body of the loop of [handleClientsEnvironments] that fills
    [pingStatuses]: the reported status, and [last_ping] unless the time is
    the zero time. *)
Definition pingInfo (now : Time) (clientName envName : string) (db : DB)
    : string * option Time :=
  match GetSlavePingStatus now clientName envName db with
  | Err _ => ("unknown", None)
  | Ok (status, lastPing) =>
      (status, if IsZero lastPing then None else Some lastPing)
  end.

(** The heartbeat [GetSlavePingStatus] reads for a tenant. *)
Definition lastHeartbeat (clientName envName : string) (db : DB) : option Time :=
  head (LastPingTime <$>
    filter (λ p, pClientName p = clientName ∧ pEnvName p = envName) (slave_pings db)).

(** ** Well-formed tables

    What the schema enforces on every table: [id] is a primary key handed
    out by [AUTOINCREMENT], and the [UNIQUE] columns identify a row. *)
Definition wfRows (rows : list Release) (seq : Z) : Prop :=
  NoDup (ID <$> rows) ∧ NoDup (uniqueKey <$> rows) ∧ Forall (λ r, ID r ≤ seq) rows.

Definition wfDB (db : DB) : Prop :=
  wfRows (releases db) (releases_seq db)
  ∧ wfRows (pending_releases db) (pending_seq db).



(** ** Sample data *)

(** The database after a step that cannot fail on it. *)
Definition orSame (db : DB) (r : result DB) : DB :=
  match r with Ok db' => db' | Err _ => db end.

(** One heartbeat of tenant alpha/prod, received at the epoch. *)
Definition heartbeatDB : DB :=
  orSame emptyDB (UpsertSlavePing 0 "alpha" "prod" "v1" emptyDB).

(** A fact about container [web] of Deployment [api] in namespace [prod],
    seen by [client]/prod with digest [sha] at time [t]. *)
Definition sampleFactIn (namespace sha client : string) (t : Time) : Release :=
  mkRelease 0 namespace "api" "Deployment" "web" "registry.example.com" "api"
    "1.0" sha client "prod" t t zeroTime zeroTime.

Definition sampleFact (sha client : string) (t : Time) : Release :=
  sampleFactIn "prod" sha client t.

(** A digest observed at second 20, then a delivery of the same digest that
    carries the older observation of second 10. *)
Definition observedDB : DB :=
  orSame emptyDB
    (UpsertRelease (30 * Second) (sampleFact "sha256:aaa" "alpha" (20 * Second))
       emptyDB).

Definition redeliveredDB : DB :=
  orSame observedDB
    (UpsertRelease (40 * Second) (sampleFact "sha256:aaa" "alpha" (10 * Second))
       observedDB).

(** An outbox of three entries, queued at seconds 1, 2 and 3. *)
Definition outboxDB : DB :=
  orSame emptyDB
    (UpsertPendingRelease (3 * Second) (sampleFact "sha256:ccc" "alpha" (3 * Second))
       (orSame emptyDB
          (UpsertPendingRelease (2 * Second)
             (sampleFact "sha256:bbb" "alpha" (2 * Second))
             (orSame emptyDB
                (UpsertPendingRelease (1 * Second)
                   (sampleFact "sha256:aaa" "alpha" (1 * Second)) emptyDB))))).

Definition syncClient : Client :=
  mkClient "https://master.example.com" "alpha-secret" "" false.

(** A master that records what it is sent; the connection breaks for the
    digest [sha256:bbb]. *)
Definition flakyMaster (q : SyncRequest) (w : list SyncRequest)
    : list SyncRequest * result Z :=
  (w ++ [q],
   if decide (sImageSHA q = "sha256:bbb")
   then Err "failed to send request: connection refused"
   else Ok 200).

(** A master that records what it is sent and answers every push, but
    refuses the digest [sha256:bbb] with [500 Internal Server Error]. *)
Definition refusingMaster (q : SyncRequest) (w : list SyncRequest)
    : list SyncRequest * result Z :=
  (w ++ [q], if decide (sImageSHA q = "sha256:bbb") then Ok 500 else Ok 200).


(** The key of tenant alpha, an admin key, and a credential that is no
    configured key but percent-decodes to the key of tenant alpha. *)
Definition alphaKey : string := "alpha-0123456789abcdef0123456789abcdef".
Definition rootKey : string := "root0123456789abcdef0123456789abcdef".
Definition encodedKey : string := "alpha%2D0123456789abcdef0123456789abcdef".

Definition sampleServer : Server :=
  mkServer ["prod"; "staging"] [alphaKey; rootKey]
    (mkConfig "master" "master" "master").












(** ** The three ways to present a credential

    [base] is a request that carries no credential; each form adds the
    credential [k] in one place.  For the query form [k] is what
    [r.URL.Query()] hands over, the parameter as the client meant it. *)
Definition noCredential (base : Request) : Prop :=
  Header base !! "Authorization" = None
  ∧ Header base !! "X-API-Key" = None
  ∧ URLQuery base !! "apikey" = None.

Definition viaBearer (k : string) (base : Request) : Request :=
  HeaderSet base "Authorization" ("Bearer " +:+ k).

Definition viaHeader (k : string) (base : Request) : Request :=
  HeaderSet base "X-API-Key" k.

Definition viaQuery (k : string) (base : Request) : Request :=
  mkRequest (Method base) (Header base) (<["apikey" := k]> (URLQuery base))
    (Vars base) (Body base).

Definition emptyRequest : Request := mkRequest "GET" ∅ ∅ ∅ None.

(** A read of tenant beta's current releases, and a manual collect that
    writes a fact of tenant beta. *)
Definition readBeta : Request :=
  mkRequest "GET" ∅ {[ "client_name" := "beta"; "env_name" := "prod" ]} ∅ None.

Definition writeBeta : Request :=
  mkRequest "PUT" ∅ ∅
    {[ "namespace" := "prod"; "workload-kind" := "Deployment";
       "workload-name" := "api"; "container" := "web" ]}
    (Some (mkManualCollectRequest "1.0" "sha256:aaa" (Some (5 * Second))
             "registry.example.com" "api" "beta" "prod")).

Definition readAlpha : Request :=
  mkRequest "GET" ∅ {[ "client_name" := "alpha"; "env_name" := "prod" ]} ∅ None.
(** ** Properties of the string primitives *)

Lemma Split_nonempty sep s : Split sep s ≠ [].
Proof.
  destruct s as [|c s]; simpl; [done|].
  case_decide; [done|]. by destruct (Split sep s).
Qed.

Lemma Join_cons sep p q qs :
  Join sep (p :: q :: qs) = p +:+ String sep (Join sep (q :: qs)).
Proof. reflexivity. Qed.

Lemma Join_Split sep s : Join sep (Split sep s) = s.
Proof.
  induction s as [|c s IH]; [done|]. cbn [Split].
  pose proof (Split_nonempty sep s) as Hne.
  case_decide as Hc.
  - subst c. destruct (Split sep s) as [|p ps]; [done|].
    by rewrite Join_cons, IH.
  - destruct (Split sep s) as [|p [|q qs]]; [done| |].
    + cbn in *. by subst.
    + rewrite Join_cons in IH. rewrite Join_cons. by rewrite <- IH.
Qed.

Lemma Split_length sep s : length (Split sep s) = S (count_byte sep s).
Proof.
  induction s as [|c s IH]; simpl; [done|].
  case_decide.
  - simpl. by rewrite IH.
  - pose proof (Split_nonempty sep s).
    destruct (Split sep s); [done|]. simpl in *. lia.
Qed.

Lemma Split_pieces sep s p : p ∈ Split sep s → count_byte sep p = 0%nat.
Proof.
  revert p. induction s as [|c s IH]; simpl; intros p Hp.
  - apply list_elem_of_singleton in Hp. by subst.
  - case_decide as Hc.
    + apply elem_of_cons in Hp as [->|Hp]; [done|]. by apply IH.
    + pose proof (Split_nonempty sep s).
      destruct (Split sep s) as [|q qs]; [done|].
      apply elem_of_cons in Hp as [->|Hp].
      * simpl. rewrite decide_False by done. apply IH. by left.
      * apply IH. by right.
Qed.

Lemma count_byte_app c s t :
  count_byte c (s +:+ t) = (count_byte c s + count_byte c t)%nat.
Proof. induction s as [|a s IH]; simpl; [done|]. rewrite IH. lia. Qed.

Lemma Split_no_sep sep s : count_byte sep s = 0%nat → Split sep s = [s].
Proof.
  induction s as [|c s IH]; simpl; [done|].
  case_decide; [lia|]. intros H0. by rewrite IH.
Qed.

Lemma Split_app sep t u :
  count_byte sep t = 0%nat →
  Split sep (t +:+ String sep u) = t :: Split sep u.
Proof.
  induction t as [|c t IH]; simpl; intros Ht.
  - by rewrite decide_True.
  - case_decide; [lia|]. by rewrite IH.
Qed.

(** ** Properties of the constant-time comparison *)

Lemma byte_val_inj a b : byte_val a = byte_val b → a = b.
Proof.
  unfold byte_val. intros H.
  rewrite <- (ascii_N_embedding a), <- (ascii_N_embedding b). by rewrite H.
Qed.

Lemma ctc_loop_zero v x y :
  length x = length y →
  ctc_loop v x y = 0%N ↔ v = 0%N ∧ x = y.
Proof.
  revert v y. induction x as [|a x IH]; intros v [|b y] Hlen; simplify_eq/=.
  - naive_solver.
  - rewrite IH by done. rewrite N.lor_eq_0_iff, N.lxor_eq_0_iff.
    split.
    + intros [[-> Hab] ->]. by apply byte_val_inj in Hab as ->.
    + intros [-> [= -> ->]]. done.
Qed.

Lemma length_list_ascii_of_string s :
  length (String.list_ascii_of_string s) = String.length s.
Proof. induction s; simpl; congruence. Qed.

Lemma list_ascii_of_string_inj s t :
  String.list_ascii_of_string s = String.list_ascii_of_string t → s = t.
Proof.
  intros H. rewrite <- (String.string_of_list_ascii_of_string s),
    <- (String.string_of_list_ascii_of_string t). by rewrite H.
Qed.

Lemma ConstantTimeCompare_eq x y : ConstantTimeCompare x y = 1 ↔ x = y.
Proof.
  unfold ConstantTimeCompare.
  destruct (String.length x =? String.length y)%nat eqn:Hlen; simpl.
  - apply Nat.eqb_eq in Hlen.
    destruct (N.eqb_spec
      (ctc_loop 0%N (String.list_ascii_of_string x) (String.list_ascii_of_string y)) 0%N)
      as [H0|H0].
    + apply ctc_loop_zero in H0 as [_ H0];
        [|by rewrite !length_list_ascii_of_string].
      apply list_ascii_of_string_inj in H0. done.
    + split; [done|]. intros ->. destruct H0.
      apply ctc_loop_zero; [done|done].
  - apply Nat.eqb_neq in Hlen. split; [done|]. by intros ->.
Qed.

Lemma ConstantTimeCompare_range x y :
  ConstantTimeCompare x y = 0 ∨ ConstantTimeCompare x y = 1.
Proof. unfold ConstantTimeCompare. repeat case_match; auto. Qed.

Lemma isValidAPIKey_compare apiKeys k :
  isValidAPIKey apiKeys k = true ↔
  ∃ v, v ∈ apiKeys ∧ ConstantTimeCompare k v = 1.
Proof.
  induction apiKeys as [|v rest IH]; simpl.
  - split; [done|]. intros (v & Hv & _). by apply elem_of_nil in Hv.
  - destruct (String.length k =? String.length v)%nat eqn:Hlen; simpl.
    + destruct (Z.eqb_spec (ConstantTimeCompare k v) 1) as [H1|H1].
      * split; [|done]. intros _. exists v. split; [left|done].
      * rewrite IH. split.
        -- intros (w & Hw & Hc). exists w. split; [by right|done].
        -- intros (w & Hw & Hc). apply elem_of_cons in Hw as [->|Hw]; [done|].
           by exists w.
    + rewrite IH. apply Nat.eqb_neq in Hlen. split.
      * intros (w & Hw & Hc). exists w. split; [by right|done].
      * intros (w & Hw & Hc). apply elem_of_cons in Hw as [->|Hw].
        -- apply ConstantTimeCompare_eq in Hc. by subst.
        -- by exists w.
Qed.

Lemma isValidAPIKey_elem_of apiKeys k :
  isValidAPIKey apiKeys k = true ↔ k ∈ apiKeys.
Proof.
  rewrite isValidAPIKey_compare. split.
  - intros (v & Hv & Hc). apply ConstantTimeCompare_eq in Hc. by subst.
  - intros Hk. exists k. split; [done|]. by apply ConstantTimeCompare_eq.
Qed.

(** ** Properties of the classifier *)

Lemma parseAPIKey_cases k :
  (∃ t s, Split hyphen k = [t; s] ∧ t ≠ "" ∧ s ≠ "" ∧ parseAPIKey k = (t, s, false))
  ∨ ((¬ ∃ t s, Split hyphen k = [t; s] ∧ t ≠ "" ∧ s ≠ "")
     ∧ parseAPIKey k = ("", k, true)).
Proof.
  unfold parseAPIKey.
  destruct (Split hyphen k) as [|t [|s [|u us]]] eqn:E; simpl;
    try (right; split; [intros (?&?&?&?); simplify_eq|done]).
  destruct (decide (t = "")) as [->|Ht].
  { right. split; [|done]. intros (?&?&?&?&?); simplify_eq. }
  destruct (decide (s = "")) as [->|Hs].
  { right. rewrite bool_decide_true by done. simpl. split; [|done].
    intros (?&?&?&?&?); simplify_eq. }
  left. exists t, s. by rewrite !bool_decide_true by done.
Qed.

Lemma Split_two_shape k t s :
  Split hyphen k = [t; s] ↔
  k = t +:+ "-" +:+ s ∧ count_byte hyphen t = 0%nat ∧ count_byte hyphen s = 0%nat.
Proof.
  split.
  - intros E. split; [|split].
    + rewrite <- (Join_Split hyphen k), E. done.
    + apply (Split_pieces hyphen k). rewrite E. by left.
    + apply (Split_pieces hyphen k). rewrite E. right. by left.
  - intros (-> & Ht & Hs).
    change (t +:+ "-" +:+ s) with (t +:+ String hyphen s).
    rewrite Split_app by done. by rewrite Split_no_sep.
Qed.

Lemma parseAPIKey_tenant k t s :
  parseAPIKey k = (t, s, false) ↔
  k = t +:+ "-" +:+ s ∧ t ≠ "" ∧ s ≠ "" ∧
  count_byte hyphen t = 0%nat ∧ count_byte hyphen s = 0%nat.
Proof.
  split.
  - intros Hp. destruct (parseAPIKey_cases k) as [(t' & s' & E & Ht & Hs & Hp')|[_ Hp']];
      rewrite Hp in Hp'; simplify_eq.
    apply Split_two_shape in E. naive_solver.
  - intros (Hk & Ht & Hs & Ht0 & Hs0).
    assert (Split hyphen k = [t; s]) as E by (apply Split_two_shape; done).
    destruct (parseAPIKey_cases k) as [(t' & s' & E' & _ & _ & Hp')|[Hno _]].
    + rewrite E in E'. by simplify_eq.
    + destruct Hno. by exists t, s.
Qed.

Lemma parseAPIKey_admin k c a :
  parseAPIKey k = (c, a, true) → c = "" ∧ a = k.
Proof.
  intros Hp. destruct (parseAPIKey_cases k) as [(t & s & _ & _ & _ & Hp')|[_ Hp']];
    rewrite Hp in Hp'; by simplify_eq.
Qed.

Lemma parseAPIKey_reconstruct k :
  let '(c, a, adm) := parseAPIKey k in
  (if adm then a else c +:+ "-" +:+ a) = k.
Proof.
  destruct (parseAPIKey k) as [[c a] [|]] eqn:Hp.
  - by apply parseAPIKey_admin in Hp as [_ ->].
  - apply parseAPIKey_tenant in Hp. naive_solver.
Qed.

Lemma authenticate_elem_of apiKeys k :
  authenticate apiKeys k = true ↔ k ∈ apiKeys.
Proof.
  unfold authenticate. pose proof (parseAPIKey_reconstruct k) as Hr.
  destruct (parseAPIKey k) as [[c a] [|]]; unfold validateAPIKeyAccess;
    rewrite isValidAPIKey_elem_of; by rewrite Hr.
Qed.

Lemma parseAPIKey_not_one_hyphen k :
  count_byte hyphen k ≠ 1%nat → parseAPIKey k = ("", k, true).
Proof.
  intros Hn. destruct (parseAPIKey_cases k) as [(t & s & E & _)|[_ Hp]]; [|done].
  pose proof (Split_length hyphen k) as Hl. rewrite E in Hl. simpl in Hl. lia.
Qed.

(** C4.  [parseAPIKey] classifies a credential as tenant-scoped, with the
    first segment as the tenant and the second as the secret, exactly when
    [strings.Split] on ["-"] yields two non-empty segments, that is when the
    credential is [t-s] with [t] and [s] non-empty and free of hyphens;
    every other shape (no hyphen, several hyphens, an empty segment) is an
    admin credential carried verbatim.  Validation accepts the rebuilt
    string [t-s], respectively the verbatim credential, exactly when
    [subtle.ConstantTimeCompare] with some configured key returns 1, which
    it does exactly on equal strings. *)
Theorem parseAPIKey_classifies (apiKeys : list string) (k : string) :
  (∀ t s, parseAPIKey k = (t, s, false)
          ↔ Split hyphen k = [t; s] ∧ t ≠ "" ∧ s ≠ "")
  ∧ (∀ t s, Split hyphen k = [t; s]
            ↔ k = t +:+ "-" +:+ s
              ∧ count_byte hyphen t = 0%nat ∧ count_byte hyphen s = 0%nat)
  ∧ ((∀ t s, ¬ (Split hyphen k = [t; s] ∧ t ≠ "" ∧ s ≠ ""))
     → parseAPIKey k = ("", k, true))
  ∧ (count_byte hyphen k ≠ 1%nat → parseAPIKey k = ("", k, true))
  ∧ (∀ t s, validateAPIKeyAccess apiKeys t s false = true
            ↔ ∃ v, v ∈ apiKeys ∧ ConstantTimeCompare (t +:+ "-" +:+ s) v = 1)
  ∧ (validateAPIKeyAccess apiKeys "" k true = true
     ↔ ∃ v, v ∈ apiKeys ∧ ConstantTimeCompare k v = 1)
  ∧ (∀ x v, ConstantTimeCompare x v = 1 ↔ x = v).
Proof.
  split; [|split; [|split; [|split; [|split; [|split]]]]].
  - intros t s. rewrite parseAPIKey_tenant, Split_two_shape. tauto.
  - intros t s. apply Split_two_shape.
  - intros Hno. destruct (parseAPIKey_cases k) as [(t & s & E & Ht & Hs & _)|[_ Hp]];
      [|done]. by destruct (Hno t s).
  - apply parseAPIKey_not_one_hyphen.
  - intros t s. unfold validateAPIKeyAccess. apply isValidAPIKey_compare.
  - unfold validateAPIKeyAccess. apply isValidAPIKey_compare.
  - intros x v. apply ConstantTimeCompare_eq.
Qed.

Lemma parseAPIKey_classifies_witness :
  parseAPIKey "root" = ("", "root", true)
  ∧ parseAPIKey "a-b-c" = ("", "a-b-c", true)
  ∧ parseAPIKey "acme-s3cret" = ("acme", "s3cret", false).
Proof.
  split; [|split].
  - destruct (parseAPIKey_classifies [] "root") as (_ & _ & _ & H & _).
    apply H. vm_compute. lia.
  - destruct (parseAPIKey_classifies [] "a-b-c") as (_ & _ & _ & H & _).
    apply H. vm_compute. lia.
  - destruct (parseAPIKey_classifies [] "acme-s3cret") as (H & _).
    apply H. vm_compute. repeat split; discriminate.
Defined.

(** C10.  The pipeline [parseAPIKey] then [validateAPIKeyAccess] accepts a
    credential exactly when it is, byte for byte, one of the configured API
    keys: the tenant branch rebuilds [clientName-clientAuth], which is the
    credential again, and the admin branch hands the credential on
    unchanged. *)
Theorem authenticate_exactly_configured (apiKeys : list string) (k : string) :
  (authenticate apiKeys k = true ↔ k ∈ apiKeys)
  ∧ (let '(clientName, clientAuth, isAdmin) := parseAPIKey k in
     validateAPIKeyAccess apiKeys clientName clientAuth isAdmin
       = isValidAPIKey apiKeys k
     ∧ (if isAdmin then clientAuth else clientName +:+ "-" +:+ clientAuth) = k).
Proof.
  split; [apply authenticate_elem_of|].
  pose proof (parseAPIKey_reconstruct k) as Hr.
  destruct (parseAPIKey k) as [[c a] [|]]; unfold validateAPIKeyAccess;
    by rewrite Hr.
Qed.

(** ** Liveness *)

Lemma Sub_le (t u : Time) (c : Duration) :
  minDuration ≤ c < maxDuration → Sub t u ≤ c ↔ t - u ≤ c.
Proof.
  intros Hc. unfold Sub.
  destruct (Z.ltb_spec (t - u) minDuration); [lia|].
  destruct (Z.ltb_spec maxDuration (t - u)); lia.
Qed.

Lemma ten_minutes_in_range : minDuration ≤ 10 * Minute < maxDuration.
Proof. by vm_compute. Qed.

Lemma fifteen_minutes_in_range : minDuration ≤ 15 * Minute < maxDuration.
Proof. by vm_compute. Qed.

Lemma pingInfo_status now clientName envName db :
  (pingInfo now clientName envName db).1 =
  match conn_err db, lastHeartbeat clientName envName db with
  | Some _, _ => "unknown"
  | None, None => "never"
  | None, Some t =>
      if decide (now - t ≤ 10 * Minute) then "online"
      else if decide (now - t ≤ 15 * Minute) then "warning"
      else "offline"
  end.
Proof.
  unfold pingInfo, GetSlavePingStatus, lastHeartbeat.
  destruct (conn_err db); [done|].
  destruct (head _) as [t|]; [|done]. simpl.
  pose proof (Sub_le now t _ ten_minutes_in_range).
  pose proof (Sub_le now t _ fifteen_minutes_in_range).
  destruct (Z.leb_spec (Sub now t) (10 * Minute)).
  { rewrite decide_True by tauto. done. }
  rewrite decide_False by lia.
  destruct (Z.leb_spec (Sub now t) (15 * Minute)).
  { rewrite decide_True by tauto. done. }
  rewrite decide_False by lia. done.
Qed.

Lemma head_fmap_filter_pings (f : SlavePing → Time) clientName envName
    (ps qs : list SlavePing) :
  (λ p, (pClientName p, pEnvName p, f p)) <$> ps
    = (λ p, (pClientName p, pEnvName p, f p)) <$> qs →
  head (f <$> filter (λ p, pClientName p = clientName ∧ pEnvName p = envName) ps)
  = head (f <$> filter (λ p, pClientName p = clientName ∧ pEnvName p = envName) qs).
Proof.
  revert qs. induction ps as [|p ps IH]; intros [|q qs] Heq; try done.
  rewrite !fmap_cons in Heq. injection Heq as Hc He Hf Hrest.
  rewrite !filter_cons, Hc, He.
  destruct (decide (pClientName q = clientName ∧ pEnvName q = envName)).
  - simpl. by rewrite Hf.
  - by apply IH.
Qed.

(** C7.  The liveness status reported for a tenant is computed at read time
    from the clock and the stored time of the last heartbeat alone: a
    storage error gives "unknown", no heartbeat row gives "never", an age of
    at most 10 minutes "online", an age above 10 and at most 15 minutes
    "warning", an age above 15 minutes "offline"; two databases that agree
    on the connection state and on the heartbeat times, whatever their
    [status] columns hold, report the same. *)
Theorem liveness_status_at_read_time
    (now : Time) (clientName envName : string) (db : DB) :
  let status := (pingInfo now clientName envName db).1 in
  (∀ e, conn_err db = Some e → status = "unknown")
  ∧ (conn_err db = None → lastHeartbeat clientName envName db = None →
     status = "never")
  ∧ (∀ t, conn_err db = None → lastHeartbeat clientName envName db = Some t →
       (now - t ≤ 10 * Minute → status = "online")
       ∧ (10 * Minute < now - t ≤ 15 * Minute → status = "warning")
       ∧ (15 * Minute < now - t → status = "offline"))
  ∧ (∀ db', conn_err db' = conn_err db →
       (λ p, (pClientName p, pEnvName p, LastPingTime p)) <$> slave_pings db'
         = (λ p, (pClientName p, pEnvName p, LastPingTime p)) <$> slave_pings db →
       pingInfo now clientName envName db' = pingInfo now clientName envName db).
Proof.
  intros status. subst status. rewrite pingInfo_status.
  split; [|split; [|split]].
  - by intros e ->.
  - by intros -> ->.
  - intros t -> ->. split; [|split]; intros Hage.
    + by rewrite decide_True.
    + rewrite decide_False by lia. by rewrite decide_True by lia.
    + rewrite decide_False by (unfold Minute, Second in *; lia).
      by rewrite decide_False by lia.
  - intros db' Hc Hrows. unfold pingInfo, GetSlavePingStatus. rewrite Hc.
    by rewrite (head_fmap_filter_pings LastPingTime _ _ _ _ Hrows).
Qed.

Lemma liveness_status_at_read_time_witness :
  (pingInfo (9 * Minute) "alpha" "prod" heartbeatDB).1 = "online"
  ∧ (pingInfo (12 * Minute) "alpha" "prod" heartbeatDB).1 = "warning"
  ∧ (pingInfo (20 * Minute) "alpha" "prod" heartbeatDB).1 = "offline"
  ∧ (pingInfo (20 * Minute) "beta" "prod" heartbeatDB).1 = "never".
Proof.
  split; [|split; [|split]].
  - destruct (liveness_status_at_read_time (9 * Minute) "alpha" "prod" heartbeatDB)
      as (_ & _ & H & _).
    apply (H 0); [reflexivity|reflexivity|]. vm_compute. discriminate.
  - destruct (liveness_status_at_read_time (12 * Minute) "alpha" "prod" heartbeatDB)
      as (_ & _ & H & _).
    apply (H 0); [reflexivity|reflexivity|]. by vm_compute.
  - destruct (liveness_status_at_read_time (20 * Minute) "alpha" "prod" heartbeatDB)
      as (_ & _ & H & _).
    apply (H 0); [reflexivity|reflexivity|]. by vm_compute.
  - destruct (liveness_status_at_read_time (20 * Minute) "beta" "prod" heartbeatDB)
      as (_ & H & _).
    apply H; reflexivity.
Defined.

(** ** Upsert *)

Lemma rfc3339_mono t u : t ≤ u → rfc3339 t ≤ rfc3339 u.
Proof.
  intros H. unfold rfc3339. apply Z.mul_le_mono_nonneg_r; [by vm_compute|].
  apply Z.div_le_mono; [by vm_compute|done].
Qed.

Lemma rfc3339_whole_seconds n : rfc3339 (n * Second) = n * Second.
Proof. unfold rfc3339. rewrite Z.div_mul; [done|by vm_compute]. Qed.

Lemma uniqueKey_touchedRow now f r : uniqueKey (touchedRow now f r) = uniqueKey r.
Proof. reflexivity. Qed.

Lemma touchAll_keys now f rows :
  uniqueKey <$> touchAll now f rows = uniqueKey <$> rows.
Proof.
  unfold touchAll. rewrite <- list_fmap_compose. apply list_fmap_ext.
  intros i r _. simpl. by case_decide.
Qed.

Lemma touchAll_ids now f rows : ID <$> touchAll now f rows = ID <$> rows.
Proof.
  unfold touchAll. rewrite <- list_fmap_compose. apply list_fmap_ext.
  intros i r _. simpl. by case_decide.
Qed.

Lemma touchAll_other now f rows :
  filter (λ r, uniqueKey r ≠ uniqueKey f) (touchAll now f rows)
  = filter (λ r, uniqueKey r ≠ uniqueKey f) rows.
Proof.
  induction rows as [|r rows IH]; [done|].
  unfold touchAll in *. rewrite fmap_cons, !filter_cons, IH.
  destruct (decide (uniqueKey r = uniqueKey f)) as [Hk|Hk].
  - rewrite !decide_False; [done|tauto|]. rewrite uniqueKey_touchedRow. tauto.
  - by rewrite !decide_True.
Qed.

Lemma filter_key_none (k : string * string * string * string * string * string)
    (rows : list Release) :
  k ∉ uniqueKey <$> rows → filter (λ r, uniqueKey r = k) rows = [].
Proof.
  intros Hk. induction rows as [|r rows IH]; [done|].
  rewrite fmap_cons, not_elem_of_cons in Hk. destruct Hk as [Hr Hk].
  rewrite filter_cons, decide_False by done. by apply IH.
Qed.

Lemma filter_key_single (k : string * string * string * string * string * string)
    (rows : list Release) :
  NoDup (uniqueKey <$> rows) → k ∈ uniqueKey <$> rows →
  ∃ r, filter (λ r, uniqueKey r = k) rows = [r].
Proof.
  induction rows as [|r rows IH]; intros Hnd Hk.
  { by apply elem_of_nil in Hk. }
  rewrite fmap_cons in Hnd, Hk. apply NoDup_cons in Hnd as [Hr Hnd].
  rewrite filter_cons. destruct (decide (uniqueKey r = k)) as [<-|Hne].
  - exists r. by rewrite filter_key_none.
  - apply elem_of_cons in Hk as [Hk|Hk]; [done|]. by apply IH.
Qed.

Lemma upsertRow_conflict now f rows seq :
  uniqueKey f ∈ uniqueKey <$> rows →
  upsertRow now f rows seq = (touchAll now f rows, seq).
Proof. intros Hk. unfold upsertRow. by rewrite bool_decide_true. Qed.

Lemma upsertRow_fresh now f rows seq :
  uniqueKey f ∉ uniqueKey <$> rows →
  upsertRow now f rows seq = (rows ++ [insertedRow now (seq + 1) f], seq + 1).
Proof. intros Hk. unfold upsertRow. by rewrite bool_decide_false. Qed.

Lemma upsertRow_wf now f rows seq :
  wfRows rows seq →
  wfRows (upsertRow now f rows seq).1 (upsertRow now f rows seq).2.
Proof.
  intros (Hid & Hkey & Hseq).
  destruct (decide (uniqueKey f ∈ uniqueKey <$> rows)) as [Hk|Hk].
  - rewrite upsertRow_conflict by done. simpl. unfold wfRows.
    rewrite touchAll_ids, touchAll_keys. split; [done|split; [done|]].
    apply Forall_forall. intros r Hr. unfold touchAll in Hr.
    apply list_elem_of_fmap in Hr as (r0 & -> & Hr0).
    rewrite Forall_forall in Hseq. specialize (Hseq r0 Hr0). by case_decide.
  - rewrite upsertRow_fresh by done. simpl. unfold wfRows.
    rewrite !fmap_app. simpl. split; [|split].
    + apply NoDup_app. split; [done|]. split; [|apply NoDup_singleton].
      intros id Hin Hin'. apply list_elem_of_singleton in Hin'. subst id.
      apply list_elem_of_fmap in Hin as (r & Hr & Hin).
      rewrite Forall_forall in Hseq. apply Hseq in Hin. lia.
    + apply NoDup_app. split; [done|]. split; [|apply NoDup_singleton].
      intros k Hin Hin'. apply list_elem_of_singleton in Hin'. by subst k.
    + apply Forall_app. split.
      * eapply Forall_impl; [done|]. simpl. intros; lia.
      * apply Forall_singleton. simpl. lia.
Qed.

Lemma upsertRow_key_present now f rows seq :
  uniqueKey f ∈ uniqueKey <$> (upsertRow now f rows seq).1.
Proof.
  destruct (decide (uniqueKey f ∈ uniqueKey <$> rows)) as [Hk|Hk].
  - rewrite upsertRow_conflict by done. simpl. by rewrite touchAll_keys.
  - rewrite upsertRow_fresh by done. simpl. rewrite fmap_app.
    apply elem_of_app. right. by left.
Qed.

Lemma upsertRow_stored now f rows seq r :
  r ∈ (upsertRow now f rows seq).1 → uniqueKey r = uniqueKey f →
  LastSeen r = rfc3339 (LastSeen f) ∧ UpdatedAt r = rfc3339 now.
Proof.
  destruct (decide (uniqueKey f ∈ uniqueKey <$> rows)) as [Hk|Hk].
  - rewrite upsertRow_conflict by done. simpl. unfold touchAll.
    intros Hr Hkey. apply list_elem_of_fmap in Hr as (r0 & -> & Hr0).
    destruct (decide (uniqueKey r0 = uniqueKey f)); [done|]. done.
  - rewrite upsertRow_fresh by done. simpl.
    intros Hr Hkey. apply elem_of_app in Hr as [Hr|Hr].
    + destruct Hk. rewrite <- Hkey. apply list_elem_of_fmap. eauto.
    + apply list_elem_of_singleton in Hr. by subst r.
Qed.

Lemma touchAll_same now f rows :
  filter (λ r, uniqueKey r = uniqueKey f) (touchAll now f rows)
  = touchedRow now f <$> filter (λ r, uniqueKey r = uniqueKey f) rows.
Proof.
  induction rows as [|r rows IH]; [done|].
  unfold touchAll in *. rewrite fmap_cons, !filter_cons, IH.
  destruct (decide (uniqueKey r = uniqueKey f)) as [Hk|Hk].
  - rewrite decide_True by (by rewrite uniqueKey_touchedRow). done.
  - by rewrite decide_False.
Qed.

Lemma UpsertRelease_Ok now f db db' :
  UpsertRelease now f db = Ok db' →
  conn_err db' = None
  ∧ releases db' = (upsertRow now f (releases db) (releases_seq db)).1
  ∧ releases_seq db' = (upsertRow now f (releases db) (releases_seq db)).2
  ∧ pending_releases db' = pending_releases db
  ∧ slave_pings db' = slave_pings db.
Proof.
  unfold UpsertRelease. destruct (conn_err db) eqn:Hc; [done|].
  destruct (upsertRow _ _ _ _) as [rows seq]. intros [= <-]. by simpl.
Qed.

(** C1 (as amended).  On a table that satisfies its schema, two upserts on
    the same unique key, the identical fact twice included, leave exactly
    one row for the key and add no row on the second call; the row keeps
    its id and [first_seen], and its [last_seen] is the value of the later
    call as RFC 3339 stores it (whole seconds), so it advances when the
    later call carries a later observation; every other row is untouched. *)
Theorem upsert_one_row_latest_call
    (now1 now2 : Time) (f1 f2 : Release) (db db1 db2 : DB) :
  wfRows (releases db) (releases_seq db) →
  uniqueKey f2 = uniqueKey f1 →
  UpsertRelease now1 f1 db = Ok db1 →
  UpsertRelease now2 f2 db1 = Ok db2 →
  wfRows (releases db2) (releases_seq db2)
  ∧ length (releases db2) = length (releases db1)
  ∧ (∃ r1 r2,
       filter (λ r, uniqueKey r = uniqueKey f1) (releases db1) = [r1]
       ∧ filter (λ r, uniqueKey r = uniqueKey f1) (releases db2) = [r2]
       ∧ ID r2 = ID r1 ∧ FirstSeen r2 = FirstSeen r1
       ∧ LastSeen r1 = rfc3339 (LastSeen f1)
       ∧ LastSeen r2 = rfc3339 (LastSeen f2)
       ∧ (LastSeen f1 ≤ LastSeen f2 → LastSeen r1 ≤ LastSeen r2))
  ∧ filter (λ r, uniqueKey r ≠ uniqueKey f1) (releases db2)
    = filter (λ r, uniqueKey r ≠ uniqueKey f1) (releases db1).
Proof.
  intros Hwf Hkey H1 H2.
  apply UpsertRelease_Ok in H1 as (_ & Hr1 & Hs1 & _).
  apply UpsertRelease_Ok in H2 as (_ & Hr2 & Hs2 & _).
  pose proof (upsertRow_wf now1 f1 _ _ Hwf) as Hwf1.
  rewrite <- Hr1, <- Hs1 in Hwf1.
  pose proof (upsertRow_wf now2 f2 _ _ Hwf1) as Hwf2.
  rewrite <- Hr2, <- Hs2 in Hwf2.
  assert (uniqueKey f1 ∈ uniqueKey <$> releases db1) as Hin.
  { rewrite Hr1. apply upsertRow_key_present. }
  rewrite upsertRow_conflict in Hr2 by (by rewrite Hkey). simpl in Hr2.
  destruct (filter_key_single (uniqueKey f1) (releases db1)) as [r1 Hf1];
    [apply Hwf1|done|].
  assert (r1 ∈ releases db1 ∧ uniqueKey r1 = uniqueKey f1) as [Hr1in Hr1k].
  { assert (r1 ∈ filter (λ r, uniqueKey r = uniqueKey f1) (releases db1)) as H
      by (rewrite Hf1; by left).
    apply list_elem_of_filter in H. tauto. }
  assert (LastSeen r1 = rfc3339 (LastSeen f1)) as Hl1.
  { rewrite Hr1 in Hr1in. by apply (upsertRow_stored _ _ _ _ _ Hr1in). }
  split; [done|]. split.
  { rewrite Hr2. unfold touchAll. by rewrite length_fmap. }
  split.
  - exists r1, (touchedRow now2 f2 r1). split; [done|]. split.
    { rewrite Hr2, <- Hkey, touchAll_same, Hkey, Hf1. done. }
    split; [done|]. split; [done|]. split; [done|]. split; [done|].
    intros Hle. rewrite Hl1. simpl. by apply rfc3339_mono.
  - rewrite Hr2, <- Hkey. apply touchAll_other.
Qed.

Lemma upsert_one_row_latest_call_witness :
  ∃ r, filter (λ r, uniqueKey r = uniqueKey (sampleFact "sha256:aaa" "alpha" 0))
         (releases redeliveredDB) = [r]
       ∧ LastSeen r = 10 * Second.
Proof.
  destruct (upsert_one_row_latest_call (30 * Second) (40 * Second)
              (sampleFact "sha256:aaa" "alpha" (20 * Second))
              (sampleFact "sha256:aaa" "alpha" (10 * Second))
              emptyDB observedDB redeliveredDB)
    as (_ & _ & (r1 & r2 & _ & Hf & _ & _ & _ & Hl & _) & _).
  - repeat split; simpl; constructor.
  - reflexivity.
  - reflexivity.
  - reflexivity.
  - exists r2. split; [exact Hf|]. rewrite Hl. reflexivity.
Defined.

(** C1 as stated fails: the stored [last_seen] follows the later call also
    when that call carries an older observation, and then regresses; and a
    value with a fraction of a second is stored without the fraction. *)
Lemma upsert_regresses_last_seen :
  UpsertRelease (30 * Second) (sampleFact "sha256:aaa" "alpha" (20 * Second))
    emptyDB = Ok observedDB
  ∧ UpsertRelease (40 * Second) (sampleFact "sha256:aaa" "alpha" (10 * Second))
      observedDB = Ok redeliveredDB
  ∧ LastSeen <$> releases observedDB = [20 * Second]
  ∧ LastSeen <$> releases redeliveredDB = [10 * Second]
  ∧ ¬ (∀ r1 r2, r1 ∈ releases observedDB → r2 ∈ releases redeliveredDB →
         uniqueKey r1 = uniqueKey r2 → LastSeen r1 ≤ LastSeen r2)
  ∧ LastSeen <$> releases
      (orSame emptyDB
         (UpsertRelease (30 * Second)
            (sampleFact "sha256:aaa" "alpha" (20 * Second + 5)) emptyDB))
    = [20 * Second].
Proof.
  split; [reflexivity|]. split; [reflexivity|].
  split; [reflexivity|]. split; [reflexivity|].
  split; [|reflexivity].
  intros H.
  specialize (H (insertedRow (30 * Second) 1 (sampleFact "sha256:aaa" "alpha" (20 * Second)))
                (touchedRow (40 * Second) (sampleFact "sha256:aaa" "alpha" (10 * Second))
                   (insertedRow (30 * Second) 1
                      (sampleFact "sha256:aaa" "alpha" (20 * Second))))).
  assert (20 * Second ≤ 10 * Second) as Hbad; [|by vm_compute in Hbad].
  apply H; [by left|by left|reflexivity].
Qed.

(** ** The outbox drain *)

Lemma set_pending_set_pending db rows1 seq1 rows2 seq2 :
  set_pending (set_pending db rows1 seq1) rows2 seq2 = set_pending db rows2 seq2.
Proof. reflexivity. Qed.

Lemma set_pending_same db :
  set_pending db (pending_releases db) (pending_seq db) = db.
Proof. by destruct db. Qed.

Lemma filter_all {A} (P : A → Prop) `{∀ x, Decision (P x)} (l : list A) :
  (∀ x, x ∈ l → P x) → filter P l = l.
Proof.
  induction l as [|x l IH]; intros HP; [done|].
  rewrite filter_cons, decide_True by (apply HP; by left).
  f_equal. apply IH. intros y Hy. apply HP. by right.
Qed.

Lemma filter_ext_in {A} (P Q : A → Prop) `{∀ x, Decision (P x)}
    `{∀ x, Decision (Q x)} (l : list A) :
  (∀ x, x ∈ l → P x ↔ Q x) → filter P l = filter Q l.
Proof.
  induction l as [|x l IH]; intros HPQ; [done|].
  rewrite !filter_cons.
  rewrite IH by (intros y Hy; apply HPQ; by right).
  destruct (decide (P x)) as [HP|HP].
  - rewrite decide_True; [done|]. apply HPQ; [by left|done].
  - rewrite decide_False; [done|]. rewrite <- HPQ; [done|by left].
Qed.

(** The check of [syncSingleRelease] on the answer: no error is returned
    exactly for the status [200 OK]. *)
Lemma syncOutcome_accepted a : syncOutcome a = None ↔ accepted a.
Proof.
  unfold accepted. destruct a as [status|e]; cbn [syncOutcome].
  - destruct (decide (status = 200)) as [->|Hne]; [done|].
    split; [done|]. by intros [= ->].
  - done.
Qed.

Section SyncProofs.
Context {World : Type}.
Variable Do : SyncRequest → World → World * result Z.

Lemma answers_length reqs w : length (answers Do reqs w).1 = length reqs.
Proof.
  revert w. induction reqs as [|q reqs IH]; intros w; [done|]. simpl.
  destruct (Do q w) as [w' a]. specialize (IH w').
  destruct (answers Do reqs w') as [rest w'']. simpl in *. by rewrite IH.
Qed.

Lemma sync_loop c l db w log :
  conn_err db = None →
  foldl (syncStep Do c) (db, w, log) l =
  let ans := (answers Do (syncRequestFor c <$> l) w).1 in
  (set_pending db
     (filter (λ r, ID r ∉ deliveredIDs l ans) (pending_releases db))
     (pending_seq db),
   (answers Do (syncRequestFor c <$> l) w).2,
   log ++ zip_with syncEvent l ans).
Proof.
  revert db w log. induction l as [|r l IH]; intros db w log Hc.
  { simpl. rewrite app_nil_r. rewrite filter_all.
    - by rewrite set_pending_same.
    - intros x _. unfold deliveredIDs. simpl. apply not_elem_of_nil. }
  rewrite fmap_cons. cbn [foldl answers].
  unfold syncStep at 2. unfold syncSingleRelease.
  destruct (Do (syncRequestFor c r) w) as [w' a] eqn:HDo.
  destruct (answers Do (syncRequestFor c <$> l) w') as [rest w''] eqn:Hans.
  cbn [fst snd zip_with].
  unfold deliveredIDs. cbn [zip zip_with]. rewrite filter_cons. cbn [snd].
  unfold syncEvent at 1.
  destruct (decide (accepted a)) as [Ha|Ha].
  - rewrite (proj2 (syncOutcome_accepted a) Ha).
    unfold DeletePendingRelease. rewrite Hc.
    rewrite IH by done. rewrite Hans. cbn [fst snd].
    rewrite <- app_assoc. cbn [pending_releases pending_seq set_pending].
    rewrite set_pending_set_pending. do 3 f_equal.
    rewrite list_filter_filter. apply filter_ext_in.
    intros x _. rewrite !fmap_cons. cbn [fst]. rewrite not_elem_of_cons.
    unfold deliveredIDs. tauto.
  - destruct (syncOutcome a) as [err|] eqn:Hout;
      [|by apply syncOutcome_accepted in Hout].
    rewrite IH by done. rewrite Hans. cbn [fst snd].
    rewrite <- app_assoc. done.
Qed.
End SyncProofs.

Lemma NoDup_fmap_eq {A B} (f : A → B) (l : list A) x y :
  NoDup (f <$> l) → x ∈ l → y ∈ l → f x = f y → x = y.
Proof.
  induction l as [|z l IH]; intros Hnd Hx Hy Hf.
  { by apply elem_of_nil in Hx. }
  rewrite fmap_cons in Hnd. apply NoDup_cons in Hnd as [Hz Hnd].
  apply elem_of_cons in Hx as [->|Hx]; apply elem_of_cons in Hy as [->|Hy].
  - done.
  - destruct Hz. rewrite Hf. apply list_elem_of_fmap. eauto.
  - destruct Hz. rewrite <- Hf. apply list_elem_of_fmap. eauto.
  - by apply IH.
Qed.

Lemma pendingEntries_elem_of db r :
  r ∈ pendingEntries db ↔ (0 < String.length (ImageSHA r))%nat ∧ r ∈ pending_releases db.
Proof.
  unfold pendingEntries. rewrite merge_sort_Permutation.
  by rewrite list_elem_of_filter.
Qed.

Lemma pendingEntries_NoDup db :
  NoDup (ID <$> pending_releases db) → NoDup (ID <$> pendingEntries db).
Proof.
  intros Hnd. unfold pendingEntries. rewrite merge_sort_Permutation.
  apply (sublist_NoDup _ _ Hnd), fmap_sublist, sublist_filter.
Qed.

Lemma deliveredIDs_elem_of pend ans id :
  id ∈ deliveredIDs pend ans ↔
  ∃ i r a, pend !! i = Some r ∧ ans !! i = Some a ∧ accepted a ∧ ID r = id.
Proof.
  unfold deliveredIDs. rewrite list_elem_of_fmap. split.
  - intros (r & -> & Hr). apply list_elem_of_fmap in Hr as ([r' a] & -> & Hp).
    apply list_elem_of_filter in Hp as [Ha Hp].
    apply list_elem_of_lookup in Hp as [i Hi].
    apply lookup_zip_with_Some in Hi as (x & y & [= -> ->] & Hx & Hy).
    by exists i, x, y.
  - intros (i & r & a & Hr & Ha & Hacc & <-). exists r. split; [done|].
    apply list_elem_of_fmap. exists (r, a). split; [done|].
    apply list_elem_of_filter. split; [done|].
    apply list_elem_of_lookup. exists i. apply lookup_zip_with_Some. eauto.
Qed.

(** C6.  A sync cycle on a reachable store handles every pending entry
    that [GetPendingReleases] enumerates, once and in order: the master
    receives the request of each entry whatever the earlier answers were,
    and the cycle logs one line per entry.  An entry whose push the master
    answers with status 200 is deleted and logged as synced and removed; an
    entry whose push is answered in any other way, a transport error or a
    response of another status, stays in the outbox, the same row as
    before, and is logged as failed; the rows that were not enumerated and
    the other tables are left alone. *)
Theorem sync_cycle_entry_by_entry {World : Type}
    (Do : SyncRequest → World → World * result Z)
    (c : Client) (db : DB) (w : World) :
  conn_err db = None →
  NoDup (ID <$> pending_releases db) →
  let pend := pendingEntries db in
  let ans := (answers Do (syncRequestFor c <$> pend) w).1 in
  let wEnd := (answers Do (syncRequestFor c <$> pend) w).2 in
  ∃ db' log,
    SyncPendingReleases Do c db w = (None, (db', wEnd, log))
    ∧ length ans = length pend
    ∧ length log = length pend
    ∧ log = zip_with syncEvent pend ans
    ∧ pending_releases db'
      = filter (λ r, ID r ∉ deliveredIDs pend ans) (pending_releases db)
    ∧ releases db' = releases db
    ∧ slave_pings db' = slave_pings db
    ∧ (∀ i r a, pend !! i = Some r → ans !! i = Some a →
         (a = Ok 200 →
          r ∉ pending_releases db'
          ∧ log !! i = Some (SyncedAndRemoved (ID r)))
         ∧ (a ≠ Ok 200 →
            r ∈ pending_releases db'
            ∧ ∃ err, log !! i = Some (SyncFailed (ID r) err)))
    ∧ (∀ r, r ∈ pending_releases db → r ∉ pend → r ∈ pending_releases db').
Proof.
  intros Hc Hnd pend ans wEnd.
  exists (set_pending db
            (filter (λ r, ID r ∉ deliveredIDs pend ans) (pending_releases db))
            (pending_seq db)),
         (zip_with syncEvent pend ans).
  assert (NoDup (ID <$> pend)) as Hndp by (by apply pendingEntries_NoDup).
  assert (length ans = length pend) as Hlen
    by (subst ans; by rewrite answers_length, length_fmap).
  split; [|split; [|split; [|split; [|split; [|split; [|split; [|split]]]]]]];
    try done.
  - unfold SyncPendingReleases, GetPendingReleases. rewrite Hc.
    fold (pendingEntries db). fold pend. by rewrite sync_loop.
  - by rewrite length_zip_with_l_eq.
  - intros i r a Hr Ha. simpl.
    assert (r ∈ pending_releases db) as Hin.
    { apply (pendingEntries_elem_of db r). by eapply list_elem_of_lookup_2. }
    assert (zip_with syncEvent pend ans !! i = Some (syncEvent r a)) as Hline.
    { apply lookup_zip_with_Some. by exists r, a. }
    split.
    + intros ->. split; [|done].
      intros Hmem. apply list_elem_of_filter in Hmem as [Hno _].
      apply Hno. apply deliveredIDs_elem_of. by exists i, r, (Ok 200).
    + intros Hfail. split.
      * apply list_elem_of_filter. split; [|done].
        intros Hd.
        apply deliveredIDs_elem_of in Hd as (j & r' & a' & Hr' & Ha' & Hacc' & Hid).
        assert (i = j) as ->.
        { eapply (NoDup_lookup (ID <$> pend)); [done| |].
          - rewrite list_lookup_fmap. unfold PendingRelease in *. by rewrite Hr.
          - rewrite list_lookup_fmap. unfold PendingRelease in *.
            rewrite Hr'. simpl. by rewrite Hid. }
        unfold accepted in Hacc'. by simplify_eq.
      * rewrite Hline. unfold syncEvent.
        destruct (syncOutcome a) as [err|] eqn:Hout; [by exists err|].
        by apply syncOutcome_accepted in Hout.
  - intros r Hin Hnp. simpl. apply list_elem_of_filter. split; [|done].
    intros Hd. apply deliveredIDs_elem_of in Hd as (j & r' & a' & Hr' & _ & _ & Hid).
    apply list_elem_of_lookup_2 in Hr'.
    assert (r' = r) as ->; [|done].
    apply (NoDup_fmap_eq ID (pending_releases db)); [done| |done|done].
    by apply (pendingEntries_elem_of db r').
Qed.

Lemma sync_cycle_entry_by_entry_witness :
  (∃ db' log received,
     SyncPendingReleases flakyMaster syncClient outboxDB []
     = (None, (db', received, log))
     ∧ ImageSHA <$> pending_releases outboxDB
       = ["sha256:aaa"; "sha256:bbb"; "sha256:ccc"]
     ∧ sImageSHA <$> received = ["sha256:aaa"; "sha256:bbb"; "sha256:ccc"]
     ∧ ImageSHA <$> pending_releases db' = ["sha256:bbb"]
     ∧ log = [SyncedAndRemoved 1;
              SyncFailed 2 "failed to send request: connection refused";
              SyncedAndRemoved 3])
  ∧ (∃ db' log received,
       SyncPendingReleases refusingMaster syncClient outboxDB []
       = (None, (db', received, log))
       ∧ sImageSHA <$> received = ["sha256:aaa"; "sha256:bbb"; "sha256:ccc"]
       ∧ ImageSHA <$> pending_releases db' = ["sha256:bbb"]
       ∧ log = [SyncedAndRemoved 1;
                SyncFailed 2 "master returned status 500";
                SyncedAndRemoved 3]).
Proof.
  split.
  - destruct (sync_cycle_entry_by_entry flakyMaster syncClient outboxDB [])
      as (db' & log & Hrun & _ & _ & Hlog & Hpend & _).
    + reflexivity.
    + apply (bool_decide_unpack _). by vm_compute.
    + exists db', log. eexists. split; [exact Hrun|].
      rewrite Hpend, Hlog. by vm_compute.
  - destruct (sync_cycle_entry_by_entry refusingMaster syncClient outboxDB [])
      as (db' & log & Hrun & _ & _ & Hlog & Hpend & _).
    + reflexivity.
    + apply (bool_decide_unpack _). by vm_compute.
    + exists db', log. eexists. split; [exact Hrun|].
      rewrite Hpend, Hlog. by vm_compute.
Defined.

(** ** Current releases *)
















(** ** Retention *)

Global Instance lastSeenDesc_trans : Transitive lastSeenDesc.
Proof. intros a b c. unfold lastSeenDesc. lia. Qed.

Global Instance lastSeenDesc_total : base.Total lastSeenDesc.
Proof. intros a b. unfold lastSeenDesc. lia. Qed.


















(** ** Presenting a credential *)

Lemma substring_all s : String.substring 0 (String.length s) s = s.
Proof. induction s as [|c s IH]; simpl; [done|]. by rewrite IH. Qed.

Lemma HasPrefix_app p k : HasPrefix (p +:+ k) p = true.
Proof.
  unfold HasPrefix. induction p as [|c p IH]; [by destruct k|].
  change (String c p +:+ k) with (String c (p +:+ k)). cbn [String.prefix].
  by destruct (ascii_dec c c).
Qed.

Lemma string_length_app p k :
  String.length (p +:+ k) = (String.length p + String.length k)%nat.
Proof.
  induction p as [|c p IH]; [done|].
  change (String c p +:+ k) with (String c (p +:+ k)). cbn [String.length].
  by rewrite IH.
Qed.

Lemma substring_app_skip p k n :
  String.substring (String.length p) n (p +:+ k) = String.substring 0 n k.
Proof.
  induction p as [|c p IH]; [done|].
  change (String c p +:+ k) with (String c (p +:+ k)).
  cbn [String.length String.substring]. apply IH.
Qed.

Lemma TrimPrefix_app p k : TrimPrefix (p +:+ k) p = k.
Proof.
  unfold TrimPrefix. rewrite HasPrefix_app, string_length_app.
  replace (String.length p + String.length k - String.length p)%nat
    with (String.length k) by lia.
  rewrite substring_app_skip. apply substring_all.
Qed.

Lemma HeaderGet_HeaderSet_eq r name value :
  HeaderGet (HeaderSet r name value) name = value.
Proof. unfold HeaderGet, HeaderSet. cbn [Header]. by rewrite lookup_insert_eq. Qed.

Lemma HeaderGet_HeaderSet_ne r name name' value :
  name ≠ name' → HeaderGet (HeaderSet r name value) name' = HeaderGet r name'.
Proof.
  intros Hne. unfold HeaderGet, HeaderSet. cbn [Header].
  by rewrite lookup_insert_ne.
Qed.

Lemma HeaderGet_absent r name : Header r !! name = None → HeaderGet r name = "".
Proof. intros H. unfold HeaderGet. by rewrite H. Qed.

Lemma QueryGet_absent r name : URLQuery r !! name = None → QueryGet r name = "".
Proof. intros H. unfold QueryGet. by rewrite H. Qed.

Lemma QueryGet_HeaderSet r name value q :
  QueryGet (HeaderSet r name value) q = QueryGet r q.
Proof. reflexivity. Qed.

Lemma Var_HeaderSet r name value v : Var (HeaderSet r name value) v = Var r v.
Proof. reflexivity. Qed.

Lemma QueryGet_viaQuery k base : QueryGet (viaQuery k base) "apikey" = k.
Proof. unfold QueryGet, viaQuery. cbn [URLQuery]. by rewrite lookup_insert_eq. Qed.

Lemma extractAPIKey_viaBearer k base : extractAPIKey (viaBearer k base) = k.
Proof.
  unfold extractAPIKey, viaBearer. rewrite HeaderGet_HeaderSet_eq.
  rewrite HasPrefix_app, TrimPrefix_app. by rewrite bool_decide_true.
Qed.

Lemma extractAPIKey_viaHeader k base :
  noCredential base → extractAPIKey (viaHeader k base) = k.
Proof.
  intros (Hauth & _ & Hq). unfold extractAPIKey, viaHeader.
  rewrite HeaderGet_HeaderSet_ne by done.
  rewrite (HeaderGet_absent _ _ Hauth), HeaderGet_HeaderSet_eq.
  rewrite QueryGet_HeaderSet, (QueryGet_absent _ _ Hq).
  rewrite (bool_decide_false ("" ≠ "")) by (by intros []). cbn [andb].
  case_bool_decide as Hk; [done|].
  destruct (decide (k = "")) as [->|]; [done|]. by destruct Hk.
Qed.

Lemma extractAPIKey_viaQuery k base :
  noCredential base →
  extractAPIKey (viaQuery k base)
  = if decide (k = "") then "" else default k (QueryUnescape k).
Proof.
  intros (Hauth & Hkey & _). unfold extractAPIKey.
  change (HeaderGet (viaQuery k base) "Authorization")
    with (HeaderGet base "Authorization").
  change (HeaderGet (viaQuery k base) "X-API-Key")
    with (HeaderGet base "X-API-Key").
  rewrite (HeaderGet_absent _ _ Hauth), (HeaderGet_absent _ _ Hkey).
  rewrite QueryGet_viaQuery.
  rewrite (bool_decide_false ("" ≠ "")) by (by intros []). cbn [andb].
  destruct (decide (k = "")) as [->|Hk]; [done|].
  rewrite bool_decide_true by done. by destruct (QueryUnescape k).
Qed.

(** A credential without ['%'] and ['+'] survives the second decoding. *)
Lemma QueryUnescape_plain k :
  count_byte "%"%char k = 0%nat → count_byte "+"%char k = 0%nat →
  QueryUnescape k = Some k.
Proof.
  induction k as [|c k IH]; [done|]. cbn [count_byte QueryUnescape].
  intros Hp Hq. destruct (decide (c = "%"%char)); [lia|].
  destruct (decide (c = "+"%char)); [lia|].
  rewrite IH by lia. done.
Qed.

Lemma extractAPIKey_forms_agree_plain k base :
  noCredential base →
  count_byte "%"%char k = 0%nat → count_byte "+"%char k = 0%nat →
  extractAPIKey (viaBearer k base) = k
  ∧ extractAPIKey (viaHeader k base) = k
  ∧ extractAPIKey (viaQuery k base) = k.
Proof.
  intros Hbase Hp Hq. split; [apply extractAPIKey_viaBearer|].
  split; [by apply extractAPIKey_viaHeader|].
  rewrite extractAPIKey_viaQuery by done.
  destruct (decide (k = "")) as [->|Hk]; [done|].
  by rewrite QueryUnescape_plain.
Qed.

(** ** The tenant gate *)

Lemma authMiddleware_valid s next r db k c a adm :
  extractAPIKey r = k → k ≠ "" → k ∈ apiKeys s → parseAPIKey k = (c, a, adm) →
  authMiddleware s next r db
  = next (HeaderSet
            (if negb adm && bool_decide (c ≠ "")
             then HeaderSet r "X-Client-Name" c else r)
            "X-Is-Admin" (if adm then "true" else "false")) db.
Proof.
  intros Hk Hne Hin Hp. unfold authMiddleware. rewrite Hk.
  rewrite decide_False by done. rewrite Hp.
  assert (validateAPIKeyAccess (apiKeys s) c a adm = true) as ->; [|done].
  pose proof (proj2 (authenticate_elem_of (apiKeys s) k) Hin) as Hauth.
  unfold authenticate in Hauth. by rewrite Hp in Hauth.
Qed.

Lemma apiRoute_valid s next r db k c a adm :
  extractAPIKey r = k → k ≠ "" → k ∈ apiKeys s → parseAPIKey k = (c, a, adm) →
  apiRoute s next r db
  = next (HeaderSet
            (if negb adm && bool_decide (c ≠ "")
             then HeaderSet r "X-Client-Name" c else r)
            "X-Is-Admin" (if adm then "true" else "false")) db.
Proof.
  intros Hk Hne Hin Hp. unfold apiRoute.
  rewrite decide_True; [by eapply authMiddleware_valid|].
  destruct (apiKeys s); [by apply elem_of_nil in Hin|simpl; lia].
Qed.

Lemma access_after_tenant_key r A :
  getClientAccessFromRequest
    (HeaderSet (HeaderSet r "X-Client-Name" A) "X-Is-Admin" "false") = (A, false).
Proof.
  unfold getClientAccessFromRequest. rewrite HeaderGet_HeaderSet_eq.
  rewrite bool_decide_false by done.
  by rewrite HeaderGet_HeaderSet_ne, HeaderGet_HeaderSet_eq.
Qed.

Lemma access_after_admin_key r :
  getClientAccessFromRequest (HeaderSet r "X-Is-Admin" "true") = ("", true).
Proof.
  unfold getClientAccessFromRequest. rewrite HeaderGet_HeaderSet_eq.
  by rewrite bool_decide_true.
Qed.

Lemma parseAPIKey_tenant_nonempty k A secret :
  parseAPIKey k = (A, secret, false) → A ≠ "" ∧ k ≠ "".
Proof.
  intros Hp. apply parseAPIKey_tenant in Hp as (-> & HA & _). split; [done|].
  destruct A; [done|]. discriminate.
Qed.

Lemma handleCurrentReleases_denied s r db A B :
  QueryGet r "client_name" = B → B ≠ "" → QueryGet r "env_name" ≠ "" → B ≠ A →
  handleCurrentReleases s
    (HeaderSet (HeaderSet r "X-Client-Name" A) "X-Is-Admin" "false") db
  = (db, accessDenied B).
Proof.
  intros HB HBne Henv Hne. unfold handleCurrentReleases.
  rewrite !QueryGet_HeaderSet, HB. rewrite bool_decide_false by tauto.
  rewrite access_after_tenant_key. cbn [negb andb].
  by rewrite bool_decide_true by done.
Qed.

Lemma handleReleaseHistory_denied s r db A B :
  Var r "client" = B → B ≠ "" → Var r "env" ≠ "" → Var r "namespace" ≠ "" →
  Var r "workload" ≠ "" → Var r "container" ≠ "" → B ≠ A →
  handleReleaseHistory s
    (HeaderSet (HeaderSet r "X-Client-Name" A) "X-Is-Admin" "false") db
  = (db, accessDenied B).
Proof.
  intros HB HBne Henv Hns Hw Hc Hne. unfold handleReleaseHistory.
  rewrite !Var_HeaderSet, HB. rewrite bool_decide_false by tauto.
  rewrite access_after_tenant_key. cbn [negb andb].
  by rewrite bool_decide_true by done.
Qed.

Lemma handleCurrentReleases_admin s r db :
  QueryGet r "client_name" ≠ "" → QueryGet r "env_name" ≠ "" →
  conn_err db = None →
  StatusCode (handleCurrentReleases s (HeaderSet r "X-Is-Admin" "true") db).2
  = StatusOK.
Proof.
  intros HB Henv Hc. unfold handleCurrentReleases.
  rewrite !QueryGet_HeaderSet. rewrite bool_decide_false by tauto.
  rewrite access_after_admin_key. cbn [negb andb].
  unfold GetCurrentReleasesFiltered, GetLastClientEnvUpdate. rewrite Hc.
  by destruct (sqlMax _).
Qed.

Lemma handleReleaseHistory_admin s r db :
  Var r "client" ≠ "" → Var r "env" ≠ "" → Var r "namespace" ≠ "" →
  Var r "workload" ≠ "" → Var r "container" ≠ "" →
  conn_err db = None →
  StatusCode (handleReleaseHistory s (HeaderSet r "X-Is-Admin" "true") db).2
  = StatusOK.
Proof.
  intros HB Henv Hns Hw Hcn Hc. unfold handleReleaseHistory.
  rewrite !Var_HeaderSet. rewrite bool_decide_false by tauto.
  rewrite access_after_admin_key. cbn [negb andb].
  unfold GetReleaseHistory. by rewrite Hc.
Qed.

Lemma handleBadgeWithAuth_valid s r db k c a adm :
  Var r "api-key" = k → k ≠ "" → k ∈ apiKeys s → parseAPIKey k = (c, a, adm) →
  handleBadgeWithAuth s r db
  = if negb adm && bool_decide (c ≠ Var r "client")
    then (db, serveBadge (CreateErrorBadge (Var r "env") "access denied"))
    else handleBadgeCore s (Var r "workload-kind") (Var r "workload-name")
           (Var r "container") (Var r "client") (Var r "env") db.
Proof.
  intros Hk Hne Hin Hp. unfold handleBadgeWithAuth. rewrite Hk.
  rewrite decide_True by (destruct (apiKeys s); [by apply elem_of_nil in Hin|simpl; lia]).
  rewrite decide_False by done. rewrite Hp.
  assert (validateAPIKeyAccess (apiKeys s) c a adm = true) as ->; [|done].
  pose proof (proj2 (authenticate_elem_of (apiKeys s) k) Hin) as Hauth.
  unfold authenticate in Hauth. by rewrite Hp in Hauth.
Qed.

(** The tenant gate as the read handlers apply it.  A read request
    (current releases, release history, badge) that carries a configured
    tenant-scoped key of tenant [A] and addresses, with its required
    parameters present, a tenant [B] other than [A] is answered with the
    access-denied condition: 403 Forbidden on the API routes and the
    "access denied" badge, which is not the "not deployed" badge.  The same
    requests with a configured admin key pass the gate for every tenant:
    the API routes answer 200 on a reachable store and the badge is the one
    of the lookup. *)
Theorem tenant_gate_on_reads (s : Server) (r : Request) (db : DB) (k : string) :
  k ∈ apiKeys s →
  (∀ A secret B, parseAPIKey k = (A, secret, false) → B ≠ A →
     (extractAPIKey r = k → QueryGet r "client_name" = B → B ≠ "" →
      QueryGet r "env_name" ≠ "" →
      apiRoute s (handleCurrentReleases s) r db = (db, accessDenied B))
     ∧ (extractAPIKey r = k → Var r "client" = B → B ≠ "" →
        Var r "env" ≠ "" → Var r "namespace" ≠ "" → Var r "workload" ≠ "" →
        Var r "container" ≠ "" →
        apiRoute s (handleReleaseHistory s) r db = (db, accessDenied B))
     ∧ (Var r "api-key" = k → Var r "client" = B →
        handleBadgeWithAuth s r db
        = (db, serveBadge (CreateErrorBadge (Var r "env") "access denied"))))
  ∧ (∀ c a, parseAPIKey k = (c, a, true) → k ≠ "" →
       (extractAPIKey r = k → QueryGet r "client_name" ≠ "" →
        QueryGet r "env_name" ≠ "" → conn_err db = None →
        StatusCode (apiRoute s (handleCurrentReleases s) r db).2 = StatusOK)
       ∧ (extractAPIKey r = k → Var r "client" ≠ "" → Var r "env" ≠ "" →
          Var r "namespace" ≠ "" → Var r "workload" ≠ "" →
          Var r "container" ≠ "" → conn_err db = None →
          StatusCode (apiRoute s (handleReleaseHistory s) r db).2 = StatusOK)
       ∧ (Var r "api-key" = k →
          handleBadgeWithAuth s r db
          = handleBadgeCore s (Var r "workload-kind") (Var r "workload-name")
              (Var r "container") (Var r "client") (Var r "env") db))
  ∧ (∀ B, StatusCode (accessDenied B) = StatusForbidden)
  ∧ (∀ env, CreateErrorBadge env "access denied" ≠ CreateNotFoundBadge env).
Proof.
  intros Hin. split; [|split; [|split]].
  - intros A secret B Hp Hne.
    destruct (parseAPIKey_tenant_nonempty _ _ _ Hp) as [HA Hk].
    split; [|split].
    + intros He HB HBne Henv.
      rewrite (apiRoute_valid s _ r db k A secret false He Hk Hin Hp).
      cbn [negb andb]. rewrite bool_decide_true by done.
      by apply handleCurrentReleases_denied.
    + intros He HB HBne Henv Hns Hw Hc.
      rewrite (apiRoute_valid s _ r db k A secret false He Hk Hin Hp).
      cbn [negb andb]. rewrite bool_decide_true by done.
      by apply handleReleaseHistory_denied.
    + intros Hv HB.
      rewrite (handleBadgeWithAuth_valid s r db k A secret false Hv Hk Hin Hp).
      cbn [negb andb]. rewrite HB. by rewrite bool_decide_true by done.
  - intros c a Hp Hk. split; [|split].
    + intros He HB Henv Hc.
      rewrite (apiRoute_valid s _ r db k c a true He Hk Hin Hp).
      cbn [negb andb]. by apply handleCurrentReleases_admin.
    + intros He HB Henv Hns Hw Hcn Hc.
      rewrite (apiRoute_valid s _ r db k c a true He Hk Hin Hp).
      cbn [negb andb]. by apply handleReleaseHistory_admin.
    + intros Hv.
      by rewrite (handleBadgeWithAuth_valid s r db k c a true Hv Hk Hin Hp).
  - done.
  - intros env. unfold CreateErrorBadge, CreateNotFoundBadge. intros [= H].
Qed.

Lemma tenant_gate_on_reads_witness :
  apiRoute sampleServer (handleCurrentReleases sampleServer)
    (viaHeader alphaKey readBeta) emptyDB
  = (emptyDB, accessDenied "beta")
  ∧ StatusCode
      (apiRoute sampleServer (handleCurrentReleases sampleServer)
         (viaHeader rootKey readBeta) emptyDB).2 = StatusOK.
Proof.
  split.
  - destruct (tenant_gate_on_reads sampleServer (viaHeader alphaKey readBeta)
                emptyDB alphaKey) as (Hdeny & _).
    + apply (bool_decide_unpack _). by vm_compute.
    + destruct (Hdeny "alpha" "0123456789abcdef0123456789abcdef" "beta")
        as (Hcur & _).
      * by vm_compute.
      * discriminate.
      * apply Hcur; [by vm_compute|by vm_compute|discriminate|by vm_compute].
  - destruct (tenant_gate_on_reads sampleServer (viaHeader rootKey readBeta)
                emptyDB rootKey) as (_ & Hadmin & _).
    + apply (bool_decide_unpack _). by vm_compute.
    + destruct (Hadmin "" rootKey) as (Hcur & _).
      * by vm_compute.
      * discriminate.
      * apply Hcur; [by vm_compute|by vm_compute|by vm_compute|reflexivity].
Defined.

(** C5 (the code at the failing input).  The write path misses the gate
    its sibling read paths apply.  With the configured key of tenant alpha,
    a read of tenant beta's current releases is refused with 403, while a
    manual collect that names tenant beta in its body is answered 200 and
    stores a fact of tenant beta, which tenant beta's own current releases
    then show. *)
Theorem tenant_write_not_gated :
  alphaKey ∈ apiKeys sampleServer
  ∧ parseAPIKey alphaKey = ("alpha", "0123456789abcdef0123456789abcdef", false)
  ∧ apiRoute sampleServer (handleCurrentReleases sampleServer)
      (viaHeader alphaKey readBeta) emptyDB
    = (emptyDB, accessDenied "beta")
  ∧ StatusCode (accessDenied "beta") = StatusForbidden
  ∧ ∃ db' resp,
      apiRoute sampleServer (handleManualCollect (10 * Second) sampleServer)
        (viaHeader alphaKey writeBeta) emptyDB = (db', resp)
      ∧ StatusCode resp = StatusOK
      ∧ ClientName <$> releases db' = ["beta"]
      ∧ ∃ shown,
          GetCurrentReleasesFiltered "beta" "prod" db' = Ok shown
          ∧ (λ c, (cClientName c, cImageSHA c)) <$> shown = [("beta", "sha256:aaa")].
Proof.
  split; [by left|]. split; [by vm_compute|]. split; [by vm_compute|].
  split; [done|].
  eexists _, _. split; [by vm_compute|]. split; [by vm_compute|].
  split; [by vm_compute|]. eexists. split; by vm_compute.
Qed.

(** C9 (the code at the failing input).  The query form decodes the
    parameter a second time, so the credential ["alpha%2D..."], which the
    two header forms hand over verbatim (an admin-shaped string that is no
    configured key, answered 401), is read from the query string as the key
    of tenant alpha and lets the request through. *)
Theorem api_key_forms_disagree :
  extractAPIKey (viaBearer encodedKey readAlpha) = encodedKey
  ∧ extractAPIKey (viaHeader encodedKey readAlpha) = encodedKey
  ∧ extractAPIKey (viaQuery encodedKey readAlpha) = alphaKey
  ∧ parseAPIKey encodedKey = ("", encodedKey, true)
  ∧ parseAPIKey alphaKey = ("alpha", "0123456789abcdef0123456789abcdef", false)
  ∧ (apiRoute sampleServer (handleCurrentReleases sampleServer)
       (viaBearer encodedKey readAlpha) emptyDB).2
    = sendUnauthorizedResponse "Invalid API key"
  ∧ (apiRoute sampleServer (handleCurrentReleases sampleServer)
       (viaHeader encodedKey readAlpha) emptyDB).2
    = sendUnauthorizedResponse "Invalid API key"
  ∧ StatusCode
      (apiRoute sampleServer (handleCurrentReleases sampleServer)
         (viaQuery encodedKey readAlpha) emptyDB).2 = StatusOK.
Proof. repeat split; by vm_compute. Qed.
